(** * utils.py of CycleGAN-PyTorch: a shallow embedding and its properties

    The file has two parts.  Part I embeds the functions and classes of
    [utils.py]: [load_state_dict], [load_pretrained_state_dict],
    [load_resume_state_dict], [make_directory], [save_checkpoint],
    [DecayLR], [ReplayBuffer], [AverageMeter] but for its formatting, and
    [ProgressMeter].  Part II states and proves the properties.

    Conventions of the embedding.
    - Python [int] is [Z].  A [float] is the rational number [Q] it stands
      for: in [DecayLR] each operation rounds to binary64 ([Float.round]);
      the fields of [AverageMeter] hold the value of the real-number
      expression, before any rounding.
    - Python [str] is [string]; a [dict] / [OrderedDict] is the list of its
      items in insertion order, with [d[k] = v] overwriting in place or
      appending.
    - A raised exception is the [Raise] outcome of [result]; a method that
      mutates [self] returns the new state next to its outcome, so that the
      state reached when an exception is raised stays visible.
    - Framework calls ([torch], [shutil], [os.path], [random]) are modelled
      next to the code that calls them, each with the behaviour the caller
      relies on.  Of the failures of a file operation, those that the
      arguments decide are modelled (a copy onto the file itself, a file
      that is not there); those of the environment (a missing directory, a
      full disk) are not. *)

From Stdlib Require Import ZArith QArith Qminmax Qround Qabs Qpower String Ascii List Lia Lqa.
From stdpp Require Import base list strings gmap.

(** * Part I: the embedding *)

(** ** Exceptions and outcomes *)

Inductive exn : Type :=
| RuntimeError (msg : string)
| AssertionError (msg : string)
| ZeroDivisionError
| IndexError
| ValueError
| OverflowError (msg : string).

Inductive result (A : Type) : Type :=
| Return (a : A)
| Raise (e : exn).
Arguments Return {A} a.
Arguments Raise {A} e.

#[global] Instance result_ret : MRet result := fun _ a => Return a.
#[global] Instance result_bind : MBind result := fun _ _ f m =>
  match m with
  | Return a => f a
  | Raise e => Raise e
  end.

Definition returns {A : Type} (r : result A) : Prop := ∃ a, r = Return a.

(** The exceptions of the file system and of the checkpoint, next to those
    of [exn]. *)
Inductive error : Type :=
| Exn (e : exn)
| KeyError (key : string)
| FileNotFoundError (f : string)
| FileExistsError (f : string)
| AttributeError (msg : string)
| SameFileError (src dst : string).

Inductive outcome (A : Type) : Type :=
| Done (a : A)
| Failed (e : error).
Arguments Done {A} a.
Arguments Failed {A} e.

#[global] Instance outcome_ret : MRet outcome := fun _ a => Done a.
#[global] Instance outcome_bind : MBind outcome := fun _ _ f m =>
  match m with
  | Done a => f a
  | Failed e => Failed e
  end.

Definition of_result {A : Type} (r : result A) : outcome A :=
  match r with
  | Return a => Done a
  | Raise e => Failed (Exn e)
  end.

(** ** Floating-point numbers (binary64) *)

Module Float.

(** A finite [float] is the rational number it stands for; an operation on
    floats is the operation on these numbers, followed by [round]. *)

(** The exponent of a number [x > 0]: the [e] with [2 ^ e <= x < 2 ^ (e + 1)]. *)
Definition exponent (x : Q) : Z :=
  let e := (Z.log2 (Qnum x) - Z.log2 (Z.pos (Qden x)))%Z in
  if Qle_bool (2 ^ e) x then e else (e - 1)%Z.

(** The integer nearest to [t], the even one of the two when [t] is half way. *)
Definition nearest_even (t : Q) : Z :=
  let f := Qfloor t in
  match (t - inject_Z f ?= 1 # 2)%Q with
  | Lt => f
  | Gt => (f + 1)%Z
  | Eq => if Z.even f then f else (f + 1)%Z
  end.

(** The exponent of the unit in the last place near [x > 0]: 53 significant
    bits, and no unit below [2 ^ -1074]. *)
Definition ulp_exponent (x : Q) : Z := Z.max (exponent x - 52) (-1074).

Definition round_pos (x : Q) : Q :=
  inject_Z (nearest_even (x / 2 ^ ulp_exponent x)) * 2 ^ ulp_exponent x.

(** Rounding to nearest, ties to even, with an unbounded exponent: the
    binary64 value of the real number [x] when the result is below
    [2 ^ 1024] in magnitude. *)
Definition round (x : Q) : Q :=
  let x := Qred x in
  Qred match (x ?= 0)%Q with
       | Eq => 0
       | Gt => round_pos x
       | Lt => - round_pos (- x)
       end.

(** Whether a rounded value is a finite float: the largest one is
    [2 ^ 1024 - 2 ^ 971], and what lies half way to [2 ^ 1024] or beyond
    rounds to [2 ^ 1024] at least. *)
Definition finite (x : Q) : bool := negb (Qle_bool (2 ^ 1024) (Qabs x)).

(** [x - y] on floats.  A difference of finite floats that rounds out of
    their range is an infinity, which is not a rational number: [sub] then
    gives a value that is not [finite]. *)
Definition sub (x y : Q) : Q := round (x - y).

End Float.

(** ** Python strings, lists and numbers *)

Module Py.

(** [s.split(sep)] for a one-character separator: never empty. *)
Fixpoint split (sep : ascii) (s : string) : list string :=
  match s with
  | EmptyString => [EmptyString]
  | String c s' =>
      if Ascii.eqb c sep then EmptyString :: split sep s'
      else match split sep s' with
           | [] => [String c EmptyString]
           | t :: ts => String c t :: ts
           end
  end.

(** [s[n:]] for [n >= 0]: a slice never raises, it clamps. *)
Fixpoint slice_from (n : nat) (s : string) : string :=
  match n, s with
  | O, _ => s
  | S n', String _ s' => slice_from n' s'
  | S _, EmptyString => EmptyString
  end.

(** [s.startswith(c)] and [s.endswith(c)] for a one-character [c]. *)
Definition startswith (c : ascii) (s : string) : bool :=
  match s with
  | String c' _ => Ascii.eqb c' c
  | EmptyString => false
  end.

Fixpoint endswith (c : ascii) (s : string) : bool :=
  match s with
  | EmptyString => false
  | String c' EmptyString => Ascii.eqb c' c
  | String _ s' => endswith c s'
  end.

(** The position [l[i]] denotes: a negative index counts from the end. *)
Definition index {A : Type} (l : list A) (i : Z) : option nat :=
  let j := if (i <? 0)%Z then (i + Z.of_nat (length l))%Z else i in
  if ((0 <=? j) && (j <? Z.of_nat (length l)))%Z then Some (Z.to_nat j) else None.

(** [l[i]] *)
Definition getitem {A : Type} (l : list A) (i : Z) : result A :=
  match index l i with
  | Some j => match l !! j with
              | Some x => Return x
              | None => Raise IndexError
              end
  | None => Raise IndexError
  end.

(** [l[i] = x] *)
Definition setitem {A : Type} (l : list A) (i : Z) (x : A) : result (list A) :=
  match index l i with
  | Some j => Return (<[j := x]> l)
  | None => Raise IndexError
  end.

(** [a / b], true division; the quotient is kept exact. *)
Definition truediv (a b : Q) : result Q :=
  if Qeq_bool b 0 then Raise ZeroDivisionError else Return (a / b)%Q.

(** [a / b] for two [int]s: the float nearest to the quotient of the
    integers, however large they are. *)
Definition int_truediv (a b : Z) : result Q :=
  if (b =? 0)%Z then Raise ZeroDivisionError
  else
    let q := Float.round (inject_Z a / inject_Z b) in
    if Float.finite q then Return q
    else Raise (OverflowError "integer division result too large for a float").

End Py.

(** ** Dictionaries in insertion order *)

Module Dict.

Definition t (V : Type) : Type := list (string * V).

Definition keys {V : Type} (d : t V) : list string := d.*1.

(** A dictionary holds each key once. *)
Definition wf {V : Type} (d : t V) : Prop := NoDup (keys d).

(** [d.get(k)] *)
Fixpoint get {V : Type} (d : t V) (k : string) : option V :=
  match d with
  | [] => None
  | (k', v) :: d' => if String.eqb k' k then Some v else get d' k
  end.

(** [k in d] *)
Definition contains {V : Type} (k : string) (d : t V) : bool :=
  match get d k with
  | Some _ => true
  | None => false
  end.

(** [d[k] = v]: the value of an existing key is replaced where it stands, a
    new key goes to the end. *)
Fixpoint set {V : Type} (k : string) (v : V) (d : t V) : t V :=
  match d with
  | [] => [(k, v)]
  | (k', v') :: d' => if String.eqb k' k then (k', v) :: d' else (k', v') :: set k v d'
  end.

(** [d.update(other)] *)
Definition update {V : Type} (d other : t V) : t V :=
  fold_left (fun acc kv => set kv.1 kv.2 acc) other d.

End Dict.

(** ** The tensor framework, as far as [load_state_dict] looks at it *)

Module nn.

(** A tensor is opaque but for [v.size()]. *)
Class Tensor (T : Type) := tensor_size : T → list nat.

(** A model, seen through its parameter mapping. *)
Record Module_ (T : Type) : Type := { parameters : Dict.t T }.
Arguments parameters {T} _.

(** [model.state_dict()]: a new mapping holding the current tensors. *)
Definition state_dict {T : Type} (model : Module_ T) : Dict.t T := parameters model.

(** What the strict load accepts: no missing key, no unexpected key, and
    every tensor of the size of the parameter it goes to. *)
Definition loadable {T : Type} `{!Tensor T} (model : Module_ T) (sd : Dict.t T) : bool :=
  forallb (fun k => Dict.contains k sd) (Dict.keys (parameters model))
  && forallb (fun k => Dict.contains k (parameters model)) (Dict.keys sd)
  && forallb (fun kv => match Dict.get sd kv.1 with
                        | Some w => bool_decide (tensor_size w = tensor_size kv.2)
                        | None => false
                        end) (parameters model).

(** [model.load_state_dict(sd)]: every parameter takes the tensor [sd] has
    for its key. *)
Definition load_state_dict {T : Type} `{!Tensor T} (model : Module_ T) (sd : Dict.t T)
  : result (Module_ T) :=
  if loadable model sd
  then Return {| parameters := map (fun kv => (kv.1, default kv.2 (Dict.get sd kv.1)))
                                   (parameters model) |}
  else Raise (RuntimeError "Error(s) in loading state_dict").

End nn.

(** ** [load_state_dict] (utils.py, lines 33-80) *)

(** Define compilation status keywords *)
Definition compile_state : string := "_orig_mod".

Definition not_compiled : exn :=
  RuntimeError "The model is not compiled. Please use `model = torch.compile(model)`.".

(** The first dot-separated token of a key: what [k.split(".")[0]] yields. *)
Definition prefix_token (k : string) : string := hd EmptyString (Py.split "." k).

(** Lines 63-68: the name an entry is stored under. *)
Definition rename_key (compile_mode : bool) (current_compile_state k : string) : string :=
  if compile_mode && negb (String.eqb current_compile_state compile_state)
  then compile_state +:+ "." +:+ k
  else if negb compile_mode && String.eqb current_compile_state compile_state
  then Py.slice_from 10 k
  else k.

(** Lines 58-69: one turn of the loop over [state_dict.items()]. *)
Definition rename_step {T : Type} (compile_mode : bool) (new_state_dict : Dict.t T)
  (kv : string * T) : result (Dict.t T) :=
  current_compile_state ← Py.getitem (Py.split "." kv.1) 0;
  if compile_mode && negb (String.eqb current_compile_state compile_state)
  then Raise not_compiled
  else Return (Dict.set (rename_key compile_mode current_compile_state kv.1) kv.2 new_state_dict).

(** Lines 57-70: the loop, from the items still to visit and the dictionary
    built so far. *)
Fixpoint rename_loop {T : Type} (compile_mode : bool) (items : list (string * T))
  (new_state_dict : Dict.t T) : result (Dict.t T) :=
  match items with
  | [] => Return new_state_dict
  | kv :: rest =>
      d ← rename_step compile_mode new_state_dict kv;
      rename_loop compile_mode rest d
  end.

(** Lines 73-74: the entries whose key the model has, with a tensor of the
    same size.  The comprehension visits a dictionary, so each kept key is
    new to the result and keeps its place. *)
Definition matching {T : Type} `{!nn.Tensor T} (model_state_dict state_dict : Dict.t T)
  : Dict.t T :=
  List.filter (fun kv =>
      Dict.contains kv.1 model_state_dict
      && match Dict.get model_state_dict kv.1 with
         | Some w => bool_decide (nn.tensor_size kv.2 = nn.tensor_size w)
         | None => false
         end) state_dict.

(** Lines 73-77: the mapping handed to the model. *)
Definition merged {T : Type} `{!nn.Tensor T} (model_state_dict state_dict : Dict.t T)
  : Dict.t T :=
  Dict.update model_state_dict (matching model_state_dict state_dict).

Definition load_state_dict {T : Type} `{!nn.Tensor T} (model : nn.Module_ T)
  (compile_mode : bool) (state_dict : Dict.t T) : result (nn.Module_ T) :=
  let model_state_dict := nn.state_dict model in
  state_dict ← rename_loop compile_mode state_dict [];
  nn.load_state_dict model (merged model_state_dict state_dict).

(** ** [save_checkpoint] (utils.py, lines 159-175) *)

Module os_path.

(** [os.path.join(a, b)] of [posixpath]. *)
Definition join (a b : string) : string :=
  if Py.startswith "/" b then b
  else if String.eqb a EmptyString || Py.endswith "/" a then a +:+ b
  else a +:+ "/" +:+ b.

End os_path.

Module IO.

(** The calls that write a file. *)
Inductive call : Type :=
| TorchSave (f : string)
| CopyFile (src dst : string).

(** The files, each with the object serialized in it, and the calls that
    have written a file so far. *)
Record World (Obj : Type) : Type := {
  files : gmap string Obj;
  journal : list call
}.
Arguments files {Obj} _.
Arguments journal {Obj} _.



End IO.


(** ** [DecayLR] (utils.py, lines 178-187) *)

Module DecayLR.

Record t : Type := {
  epochs : Z;
  offset : Z;
  decay_epochs : Z
}.

Definition __init__ (epochs offset decay_epochs : Z) : result t :=
  let epoch_flag := (epochs - decay_epochs)%Z in
  if (epoch_flag >? 0)%Z
  then Return {| epochs := epochs; offset := offset; decay_epochs := decay_epochs |}
  else Raise (AssertionError "Decay must start before the training session ends!").

(** The operands of the division are [int]s and its result is a [float];
    [1.0 - q] is a subtraction of floats. *)
Definition step (self : t) (epoch : Z) : result Q :=
  q ← Py.int_truediv (Z.max 0 (epoch + offset self - decay_epochs self))
                     (epochs self - decay_epochs self);
  Return (Float.sub 1 q).

(** The float [step] returns for the numerator [a] over [span], when the
    quotient is in the range of the floats. *)
Definition factor (span a : Z) : Q :=
  Float.sub 1 (Float.round (inject_Z a / inject_Z span)).

End DecayLR.

(** ** [ReplayBuffer] (utils.py, lines 190-210) *)

(** The module [random]: its generator state is threaded through the calls
    that draw from it. *)
Module random.

Class Source (G : Type) : Type := {
  (** [random.uniform(a, b)] *)
  uniform : Q → Q → G → Q * G;
  (** the integer [random.randint(a, b)] draws when the range is not empty *)
  draw : Z → Z → G → Z * G;
  draw_in_range : ∀ a b g, (a ≤ b)%Z → (a ≤ (draw a b g).1 ≤ b)%Z
}.

(** [random.randint(a, b)]: an integer [N] with [a <= N <= b]. *)
Definition randint {G : Type} `{!Source G} (a b : Z) (g : G) : result (Z * G) :=
  if (a <=? b)%Z then Return (draw a b g) else Raise ValueError.

End random.

Module torch.

(** What differs between versions of torch, as far as [push_and_pop] can
    tell: the exception that [torch.cat] raises on an empty list, a
    RuntimeError in some versions and a ValueError in others. *)
Class Version : Type := { cat_empty : exn }.

(** A tensor of one dimension at least, as [push_and_pop] goes through it:
    the size its slices along dimension 0 have, and what each slice holds. *)
Record Tensor (A : Type) : Type := {
  slice_size : list nat;
  slices : list A
}.
Arguments slice_size {A} _.
Arguments slices {A} _.

(** [for element in t]: the slices of [t], each with its size. *)
Definition elements {A : Type} (t : Tensor A) : list (list nat * A) :=
  (λ a, (slice_size t, a)) <$> slices t.

(** [torch.unsqueeze(element, 0)]: the tensor whose one slice is [element]. *)
Definition unsqueeze0 {A : Type} (element : list nat * A) : Tensor A :=
  {| slice_size := element.1; slices := [element.2] |}.

(** [t.clone()] *)
Definition clone {A : Type} (t : Tensor A) : Tensor A := t.

(** The RuntimeError of [torch.cat] on tensors whose slices differ in size;
    its message goes on to name the sizes found. *)
Definition size_mismatch : exn :=
  RuntimeError "Sizes of tensors must match except in dimension 0".

(** [torch.cat(tensors)], along dimension 0: the slices of the tensors, one
    tensor after the other.  The framework refuses an empty list, and
    tensors whose slices differ in size. *)
Definition cat {version : Version} {A : Type} (tensors : list (Tensor A)) : result (Tensor A) :=
  match tensors with
  | [] => Raise cat_empty
  | t :: _ =>
      if forallb (λ t', bool_decide (slice_size t' = slice_size t)) tensors
      then Return {| slice_size := slice_size t; slices := concat (slices <$> tensors) |}
      else Raise size_mismatch
  end.

End torch.

Module ReplayBuffer.

Record t (A : Type) : Type := {
  max_size : Z;
  data : list (torch.Tensor A)
}.
Arguments max_size {A} _.
Arguments data {A} _.

Definition __init__ {A : Type} (max_size : Z) : result (t A) :=
  if (max_size >? 0)%Z
  then Return {| max_size := max_size; data := [] |}
  else Raise (AssertionError "Empty buffer or trying to create a black hole. Be careful.").

(** [self.data = d] *)
Definition with_data {A : Type} (self : t A) (d : list (torch.Tensor A)) : t A :=
  {| max_size := max_size self; data := d |}.

(** Lines 198-209: the loop over the samples of the batch, from the samples
    still to visit, the buffer, the generator and [to_return] so far. *)
Fixpoint push_and_pop_loop {A G : Type} `{!random.Source G}
  (elements : list (list nat * A)) (self : t A) (g : G)
  (to_return : list (torch.Tensor A))
  : t A * G * result (list (torch.Tensor A)) :=
  match elements with
  | [] => (self, g, Return to_return)
  | element :: rest =>
      let element := torch.unsqueeze0 element in
      if (Z.of_nat (length (data self)) <? max_size self)%Z then
        push_and_pop_loop rest (with_data self (data self ++ [element])) g
                          (to_return ++ [element])
      else
        let '(u, g) := random.uniform 0 1 g in
        if negb (Qle_bool u (1 # 2)) then
          match random.randint 0 (max_size self - 1) g with
          | Raise e => (self, g, Raise e)
          | Return (i, g) =>
              match Py.getitem (data self) i with
              | Raise e => (self, g, Raise e)
              | Return stored =>
                  match Py.setitem (data self) i element with
                  | Raise e => (self, g, Raise e)
                  | Return d =>
                      push_and_pop_loop rest (with_data self d) g
                                        (to_return ++ [torch.clone stored])
                  end
              end
          end
        else
          push_and_pop_loop rest self g (to_return ++ [element])
  end.

Definition push_and_pop {A G : Type} `{!random.Source G} {version : torch.Version}
  (self : t A) (g : G) (data : torch.Tensor A) : t A * G * result (torch.Tensor A) :=
  let '(self, g, r) := push_and_pop_loop (torch.elements data) self g [] in
  (self, g, to_return ← r; torch.cat to_return).

(** The buffers a program can hold: made by the constructor, then used
    through [push_and_pop] any number of times, whatever the batches, the
    state of the generator and the outcomes. *)
Inductive reachable {A G : Type} `{!random.Source G} {version : torch.Version}
  : t A → Prop :=
| reachable_init (max_size : Z) (self : t A) :
    __init__ max_size = Return self → reachable self
| reachable_push (self : t A) (g : G) (batch : torch.Tensor A) :
    reachable self → reachable (push_and_pop self g batch).1.1.

(** Positive capacity, at most that many stored units, one sample each. *)
Definition ok {A : Type} (self : t A) : Prop :=
  (0 < max_size self)%Z
  ∧ (Z.of_nat (length (data self)) ≤ max_size self)%Z
  ∧ Forall (λ unit, length (torch.slices unit) = 1) (data self).

(** The samples the buffer holds, in the order of its units. *)
Definition samples {A : Type} (self : t A) : list A :=
  concat (torch.slices <$> data self).

End ReplayBuffer.

(** ** [AverageMeter] (utils.py, lines 213-237) *)

Inductive Summary : Type := NONE | AVERAGE | SUM | COUNT.

Module AverageMeter.

Record t : Type := {
  name : string;
  fmt : string;
  summary_type : Summary;
  val : Q;
  avg : Q;
  sum : Q;
  count : Z
}.

Definition reset (self : t) : t :=
  {| name := name self; fmt := fmt self; summary_type := summary_type self;
     val := 0; avg := 0; sum := 0; count := 0 |}.

Definition __init__ (name fmt : string) (summary_type : Summary) : t :=
  reset {| name := name; fmt := fmt; summary_type := summary_type;
           val := 0; avg := 0; sum := 0; count := 0 |}.

Definition with_val (self : t) (x : Q) : t :=
  {| name := name self; fmt := fmt self; summary_type := summary_type self;
     val := x; avg := avg self; sum := sum self; count := count self |}.

Definition with_sum (self : t) (x : Q) : t :=
  {| name := name self; fmt := fmt self; summary_type := summary_type self;
     val := val self; avg := avg self; sum := x; count := count self |}.

Definition with_count (self : t) (x : Z) : t :=
  {| name := name self; fmt := fmt self; summary_type := summary_type self;
     val := val self; avg := avg self; sum := sum self; count := x |}.

Definition with_avg (self : t) (x : Q) : t :=
  {| name := name self; fmt := fmt self; summary_type := summary_type self;
     val := val self; avg := x; sum := sum self; count := count self |}.

(** Lines 233-237.  The three assignments before the division have taken
    place when the division raises. *)
Definition update (self : t) (val : Q) (n : Z) : t * result unit :=
  let self := with_val self val in
  let self := with_sum self (sum self + val * inject_Z n)%Q in
  let self := with_count self (count self + n)%Z in
  match Py.truediv (sum self) (inject_Z (count self)) with
  | Raise e => (self, Raise e)
  | Return q => (with_avg self q, Return tt)
  end.

End AverageMeter.

(** ** Text: [str], [format], [join] and [print] *)

Module Text.

(** The character of the decimal digit [d], for [0 <= d < 10]. *)
Definition digit (d : Z) : ascii := ascii_of_nat (48 + Z.to_nat d).

(** The decimal digits of [n >= 0], the most significant first; [fuel]
    bounds their number. *)
Fixpoint digits (fuel : nat) (n : Z) : string :=
  match fuel with
  | O => EmptyString
  | S fuel =>
      if (n <? 10)%Z then String (digit n) EmptyString
      else digits fuel (n / 10) +:+ String (digit (n mod 10)) EmptyString
  end.

(** [str(n)] for an [int]: a number has no more decimal digits than binary
    ones. *)
Definition str (n : Z) : string :=
  if (n <? 0)%Z then String "-" (digits (S (Z.to_nat (Z.log2 (- n)))) (- n))
  else digits (S (Z.to_nat (Z.log2 n))) n.

Fixpoint spaces (n : nat) : string :=
  match n with
  | O => EmptyString
  | S n => String " " (spaces n)
  end.

(** [format(x, "<width>d")] for an [int]: [str(x)], moved to the right of
    [width] columns when it is shorter. *)
Definition format_d (width : nat) (x : Z) : string :=
  spaces (width - String.length (str x)) +:+ str x.

(** The value of a digit character. *)
Definition digit_value (c : ascii) : option nat :=
  let n := nat_of_ascii c in
  if (48 <=? n)%nat && (n <=? 57)%nat then Some (n - 48)%nat else None.

(** Where the scan of a template is: in the text, or how far into a
    replacement field [{:<width>d}]. *)
Inductive scan : Type :=
| InText
| Open
| Spec
| Width (width : nat)
| Conv (width : nat).

(** [template.format(x)] with one [int] argument, for the templates made of
    text without braces and at most one field [{:d}] or [{:<width>d}], the
    width not starting with 0.  [None]: the template is not one of these
    (Python raises, or formats by rules that are not modelled here). *)
Fixpoint format_from (st : scan) (used : bool) (template : string) (x : Z) : option string :=
  match template with
  | EmptyString =>
      match st with
      | InText => Some EmptyString
      | _ => None
      end
  | String c rest =>
      match st with
      | InText =>
          if Ascii.eqb c "{" then format_from Open used rest x
          else if Ascii.eqb c "}" then None
          else String c <$> format_from InText used rest x
      | Open =>
          if Ascii.eqb c ":" then format_from Spec used rest x else None
      | Spec =>
          if Ascii.eqb c "d" then format_from (Conv 0) used rest x
          else match digit_value c with
               | Some (S d) => format_from (Width (S d)) used rest x
               | _ => None
               end
      | Width width =>
          if Ascii.eqb c "d" then format_from (Conv width) used rest x
          else match digit_value c with
               | Some d => format_from (Width (10 * width + d)) used rest x
               | None => None
               end
      | Conv width =>
          if Ascii.eqb c "}" then
            if used then None
            else (λ s, format_d width x +:+ s) <$> format_from InText true rest x
          else None
      end
  end.

Definition format (template : string) (x : Z) : option string :=
  format_from InText false template x.

(** Text without braces: [format] copies it. *)
Fixpoint plain (s : string) : bool :=
  match s with
  | EmptyString => true
  | String c s => negb (Ascii.eqb c "{") && negb (Ascii.eqb c "}") && plain s
  end.

(** [sep.join(entries)] *)
Definition join (sep : string) (entries : list string) : string :=
  String.concat sep entries.

Definition tab : string := String (ascii_of_nat 9) EmptyString.

(** [print(s)]: one more line on the standard output. *)
Definition print (s : string) (stdout : list string) : list string := stdout ++ [s].

End Text.

(** ** [ProgressMeter] (utils.py, lines 258-277) *)

Module ProgressMeter.

(** What [display] and [display_summary] ask of a meter. *)
Class Meter (M : Type) : Type := {
  __str__ : M → string;
  summary : M → string
}.

Record t (M : Type) : Type := {
  batch_fmtstr : string;
  meters : list M;
  prefix : string
}.
Arguments batch_fmtstr {M} _.
Arguments meters {M} _.
Arguments prefix {M} _.

Definition _get_batch_fmtstr (num_batches : Z) : option string :=
  let num_digits := Z.of_nat (String.length (Text.str (num_batches / 1))) in
  let fmt := "{:" +:+ Text.str num_digits +:+ "d}" in
  formatted ← Text.format fmt num_batches;
  Some ("[" +:+ fmt +:+ "/" +:+ formatted +:+ "]").

Definition __init__ {M : Type} (num_batches : Z) (meters : list M) (prefix : string)
  : option (t M) :=
  batch_fmtstr ← _get_batch_fmtstr num_batches;
  Some {| batch_fmtstr := batch_fmtstr; meters := meters; prefix := prefix |}.

Definition display {M : Type} `{!Meter M} (self : t M) (batch : Z) (stdout : list string)
  : option (list string) :=
  label ← Text.format (batch_fmtstr self) batch;
  let entries := [prefix self +:+ label] in
  let entries := entries ++ (__str__ <$> meters self) in
  Some (Text.print (Text.join Text.tab entries) stdout).

Definition display_summary {M : Type} `{!Meter M} (self : t M) (stdout : list string)
  : list string :=
  let entries := [" *"] in
  let entries := entries ++ (summary <$> meters self) in
  Text.print (Text.join " " entries) stdout.

End ProgressMeter.

(** ** Concrete instances for the examples *)

Module Fixtures.

(** A tensor given by its shape and its entries. *)
Record tensor : Type := { shape : list nat; entries : list Z }.

#[global] Instance tensor_Tensor : nn.Tensor tensor := shape.

Definition zeros3 : tensor := {| shape := [3]; entries := [0; 0; 0]%Z |}.
Definition ones3 : tensor := {| shape := [3]; entries := [1; 1; 1]%Z |}.
Definition ones5 : tensor := {| shape := [5]; entries := [1; 1; 1; 1; 1]%Z |}.

(** The target [{"a": shape(3)}] and the source [{"a": shape(3), "b": shape(5)}]. *)
Definition target_a : nn.Module_ tensor := {| nn.parameters := [("a", zeros3)] |}.
Definition source_ab : Dict.t tensor := [("a", ones3); ("b", ones5)].

(** A compiled model and two checkpoints for it: one saved by a compiled
    model, one in which an entry lacks the marker. *)
Definition compiled_a : nn.Module_ tensor := {| nn.parameters := [("_orig_mod.a", zeros3)] |}.
Definition source_compiled : Dict.t tensor := [("_orig_mod.a", ones3); ("_orig_mod.b", ones5)].
Definition source_mixed : Dict.t tensor := [("_orig_mod.a", ones3); ("b", ones5)].

(** A linear congruential generator for [random]. *)
Definition lcg_next (g : Z) : Z := ((1103515245 * g + 12345) mod 2147483648)%Z.

Definition lcg_uniform (a b : Q) (g : Z) : Q * Z :=
  let g := lcg_next g in
  ((a + (b - a) * (g # 2147483648))%Q, g).

Definition lcg_draw (a b : Z) (g : Z) : Z * Z :=
  let g := lcg_next g in
  ((a + g mod (b - a + 1))%Z, g).

#[global] Instance lcg_Source : random.Source Z.
Proof.
  refine {| random.uniform := lcg_uniform; random.draw := lcg_draw |}.
  intros a b g Hab. unfold lcg_draw. simpl.
  pose proof (Z.mod_pos_bound (lcg_next g) (b - a + 1)) as Hmod. lia.
Defined.

(** Two versions of torch. *)
Definition torch_runtime_error : torch.Version :=
  {| torch.cat_empty := RuntimeError "torch.cat(): expected a non-empty list of Tensors" |}.
Definition torch_value_error : torch.Version := {| torch.cat_empty := ValueError |}.

(** A batch of samples of size [size]. *)
Definition batch (size : list nat) (samples : list nat) : torch.Tensor nat :=
  {| torch.slice_size := size; torch.slices := samples |}.
Definition five_samples : torch.Tensor nat := batch [3] [1; 2; 3; 4; 5].

End Fixtures.

(** ** Checkpoints written by a compiled model *)

(** The keys a compiled model gives its parameters: the marker and a dot
    before each name. *)
Definition compiled_keys {T : Type} (state_dict : Dict.t T) : Dict.t T :=
  map (λ kv, (compile_state +:+ "." +:+ kv.1, kv.2)) state_dict.

(** ** [load_pretrained_state_dict] and [load_resume_state_dict]
       (utils.py, lines 83-151) *)

(** A checkpoint is a dictionary with up to five entries; [None] is a key
    the dictionary does not have.  The entry ["ema_state_dict"] may hold
    Python's [None]. *)
Record Checkpoint (T O S : Type) : Type := {
  ck_epoch : option Z;
  ck_state_dict : option (Dict.t T);
  ck_ema_state_dict : option (option (Dict.t T));
  ck_optimizer : option O;
  ck_scheduler : option S
}.
Arguments ck_epoch {T O S} _.
Arguments ck_state_dict {T O S} _.
Arguments ck_ema_state_dict {T O S} _.
Arguments ck_optimizer {T O S} _.
Arguments ck_scheduler {T O S} _.

(** [checkpoint[key]] *)
Definition subscript {A : Type} (key : string) (entry : option A) : outcome A :=
  match entry with
  | Some a => Done a
  | None => Failed (KeyError key)
  end.

(** [torch.load(f, map_location=...)]: the object serialized in [f]. *)
Definition torch_load {Obj : Type} (f : string) (w : IO.World Obj) : outcome Obj :=
  match IO.files w !! f with
  | Some obj => Done obj
  | None => Failed (FileNotFoundError f)
  end.

Definition load_pretrained_state_dict {T O S : Type} `{!nn.Tensor T}
  (model : nn.Module_ T) (compile_state : bool) (model_weights_path : string)
  (w : IO.World (Checkpoint T O S)) : outcome (nn.Module_ T) :=
  checkpoint ← torch_load model_weights_path w;
  state_dict ← subscript "state_dict" (ck_state_dict checkpoint);
  of_result (load_state_dict model compile_state state_dict).

(** An optimizer or a scheduler, with the state [St] it saves and loads:
    [x.load_state_dict(st)].  A load that raises leaves [x] as it was. *)
Class Stateful (X St : Type) := load_state : X → St → result X.

(** The objects the caller hands over; [load_resume_state_dict] changes them
    in place, so they are given back next to the outcome. *)
Record Handles (T O Sch : Type) : Type := {
  model : nn.Module_ T;
  ema_model : option (nn.Module_ T);
  optimizer : O;
  scheduler : option Sch
}.
Arguments model {T O Sch} _.
Arguments ema_model {T O Sch} _.
Arguments optimizer {T O Sch} _.
Arguments scheduler {T O Sch} _.

(** The tuple returned: four components without a scheduler, five with. *)
Inductive Resumed (T O Sch : Type) : Type :=
| Tuple4 (model : nn.Module_ T) (ema_model : option (nn.Module_ T)) (start_epoch : Z)
         (optimizer : O)
| Tuple5 (model : nn.Module_ T) (ema_model : option (nn.Module_ T)) (start_epoch : Z)
         (optimizer : O) (scheduler : Sch).
Arguments Tuple4 {T O Sch} _ _ _ _.
Arguments Tuple5 {T O Sch} _ _ _ _ _.

(** Lines 142-143: the EMA model after the optional load.  [load_state_dict]
    starts with [model.state_dict()], which [None] does not have. *)
Definition load_ema {T : Type} `{!nn.Tensor T} (ema_model : option (nn.Module_ T))
  (compile_state : bool) (ema_state_dict : option (Dict.t T))
  : outcome (option (nn.Module_ T)) :=
  match ema_state_dict with
  | None => Done ema_model
  | Some sd =>
      match ema_model with
      | None => Failed (AttributeError "'NoneType' object has no attribute 'state_dict'")
      | Some m => m' ← of_result (load_state_dict m compile_state sd); Done (Some m')
      end
  end.

Definition load_resume_state_dict {T O OSt Sch SSt : Type} `{!nn.Tensor T}
  `{!Stateful O OSt} `{!Stateful Sch SSt}
  (h : Handles T O Sch) (compile_state : bool) (model_weights_path : string)
  (w : IO.World (Checkpoint T OSt SSt))
  : Handles T O Sch * outcome (Resumed T O Sch) :=
  match torch_load model_weights_path w with
  | Failed e => (h, Failed e)
  | Done checkpoint =>
  match subscript "epoch" (ck_epoch checkpoint) with
  | Failed e => (h, Failed e)
  | Done start_epoch =>
  match subscript "state_dict" (ck_state_dict checkpoint) with
  | Failed e => (h, Failed e)
  | Done state_dict =>
  let ema_state_dict := match ck_ema_state_dict checkpoint with
                        | Some entry => entry
                        | None => None
                        end in
  match load_state_dict (model h) compile_state state_dict with
  | Raise e => (h, Failed (Exn e))
  | Return model' =>
  let h := {| model := model'; ema_model := ema_model h;
              optimizer := optimizer h; scheduler := scheduler h |} in
  match load_ema (ema_model h) compile_state ema_state_dict with
  | Failed e => (h, Failed e)
  | Done ema_model' =>
  let h := {| model := model h; ema_model := ema_model';
              optimizer := optimizer h; scheduler := scheduler h |} in
  match subscript "optimizer" (ck_optimizer checkpoint) with
  | Failed e => (h, Failed e)
  | Done optimizer_state =>
  match load_state (optimizer h) optimizer_state with
  | Raise e => (h, Failed (Exn e))
  | Return optimizer' =>
  let h := {| model := model h; ema_model := ema_model h;
              optimizer := optimizer'; scheduler := scheduler h |} in
  match scheduler h with
  | Some sch =>
      match subscript "scheduler" (ck_scheduler checkpoint) with
      | Failed e => (h, Failed e)
      | Done scheduler_state =>
      match load_state sch scheduler_state with
      | Raise e => (h, Failed (Exn e))
      | Return sch' =>
          ({| model := model h; ema_model := ema_model h;
              optimizer := optimizer h; scheduler := Some sch' |},
           Done (Tuple5 (model h) (ema_model h) start_epoch (optimizer h) sch'))
      end
      end
  | None =>
      (h, Done (Tuple4 (model h) (ema_model h) start_epoch (optimizer h)))
  end
  end
  end
  end
  end
  end
  end
  end.

(** ** [make_directory] (utils.py, lines 154-156) *)

Module os.

(** The part of the file system [make_directory] goes through: a call of
    [os.makedirs] that returns has made the directory. *)
Class FileSystem (F : Type) : Type := {
  (** [os.path.exists(p)] *)
  path_exists : string → F → bool;
  (** [os.makedirs(p)] *)
  makedirs : string → F → F * outcome unit;
  makedirs_done : ∀ p fs fs', makedirs p fs = (fs', Done tt) → path_exists p fs' = true
}.

End os.

Definition make_directory {F : Type} `{!os.FileSystem F} (dir_path : string) (fs : F)
  : F * outcome unit :=
  if negb (os.path_exists dir_path fs)
  then os.makedirs dir_path fs
  else (fs, Done tt).

(** ** More concrete instances *)

Module Examples.

(** An optimizer and a scheduler reduced to a number: loading a state stores
    it. *)
#[global] Instance nat_Stateful : Stateful nat nat := λ _ st, Return st.

(** A checkpoint of epoch 7 for the model [Fixtures.target_a], without EMA
    weights and without a scheduler entry. *)
Definition checkpoint_a : Checkpoint Fixtures.tensor nat nat :=
  {| ck_epoch := Some 7%Z;
     ck_state_dict := Some [("a", Fixtures.ones3)];
     ck_ema_state_dict := Some None;
     ck_optimizer := Some 11;
     ck_scheduler := None |}.

(** The same with EMA weights, and the same without an optimizer entry. *)
Definition checkpoint_ema : Checkpoint Fixtures.tensor nat nat :=
  {| ck_epoch := Some 7%Z;
     ck_state_dict := Some [("a", Fixtures.ones3)];
     ck_ema_state_dict := Some (Some [("a", Fixtures.ones3)]);
     ck_optimizer := Some 11;
     ck_scheduler := None |}.

Definition checkpoint_no_optimizer : Checkpoint Fixtures.tensor nat nat :=
  {| ck_epoch := Some 7%Z;
     ck_state_dict := Some [("a", Fixtures.ones3)];
     ck_ema_state_dict := None;
     ck_optimizer := None;
     ck_scheduler := None |}.

(** A file system holding one checkpoint. *)
Definition disk (checkpoint : Checkpoint Fixtures.tensor nat nat)
  : IO.World (Checkpoint Fixtures.tensor nat nat) :=
  {| IO.files := {[ "results/g_last.pth.tar" := checkpoint ]}; IO.journal := [] |}.

(** Directories as the set of the paths that exist; [os.makedirs] refuses a
    path that exists. *)
#[global] Instance set_FileSystem : os.FileSystem (gset string).
Proof.
  refine {| os.path_exists := λ p fs, bool_decide (p ∈ fs);
            os.makedirs := λ p fs, if bool_decide (p ∈ fs)
                                   then (fs, Failed (FileExistsError p))
                                   else ({[p]} ∪ fs, Done tt) |}.
  intros p fs fs'. case_bool_decide; [discriminate|].
  intros [= <-]. apply bool_decide_eq_true. set_solver.
Defined.

(** A model to resume, an optimizer, and no EMA model and no scheduler. *)
Definition handles_a : Handles Fixtures.tensor nat nat :=
  {| model := Fixtures.target_a; ema_model := None; optimizer := 0; scheduler := None |}.

(** Meters that are their own text. *)
#[global] Instance string_Meter : ProgressMeter.Meter string :=
  {| ProgressMeter.__str__ := id; ProgressMeter.summary := id |}.

End Examples.

(** * Part II: properties *)

(** ** Outcomes *)

Lemma bind_returns_inv {A B : Type} (f : A → result B) (m : result A) (b : B) :
  (m ≫= f) = Return b → ∃ a, m = Return a ∧ f a = Return b.
Proof. destruct m as [a|e]; simpl; [eauto | discriminate]. Qed.

(** ** Strings and lists *)

Lemma split_nonempty (sep : ascii) (s : string) : Py.split sep s ≠ [].
Proof.
  destruct s as [|c s]; simpl; [discriminate|].
  destruct (Ascii.eqb c sep); [discriminate|].
  destruct (Py.split sep s); discriminate.
Qed.

Lemma getitem_split_0 (k : string) :
  Py.getitem (Py.split "." k) 0 = Return (prefix_token k).
Proof.
  unfold prefix_token. pose proof (split_nonempty "." k) as Hne.
  destruct (Py.split "." k) as [|t ts]; [congruence|]. reflexivity.
Qed.

Lemma append_String (c : ascii) (a b : string) :
  String c a +:+ b = String c (a +:+ b).
Proof. reflexivity. Qed.

Lemma slice_from_suffix (n : nat) (s : string) :
  ∃ front, s = front +:+ Py.slice_from n s ∧ String.length front = Nat.min n (String.length s).
Proof.
  revert s. induction n as [|n IH]; intros s.
  - exists EmptyString. split; reflexivity.
  - destruct s as [|c s]; simpl.
    + exists EmptyString. split; reflexivity.
    + destruct (IH s) as (front & Heq & Hlen).
      exists (String c front). rewrite append_String. split; [by f_equal | simpl; lia].
Qed.

Lemma slice_from_app (front rest : string) :
  Py.slice_from (String.length front) (front +:+ rest) = rest.
Proof.
  induction front as [|c front IH]; [by destruct rest|].
  rewrite append_String. exact IH.
Qed.

(** A key whose first token is [t] is [t] itself or [t], a dot and more. *)
Lemma prefix_token_inv (k t : string) :
  prefix_token k = t → k = t ∨ ∃ rest, k = t +:+ "." +:+ rest.
Proof.
  unfold prefix_token. revert t. induction k as [|c k IH]; intros t; simpl.
  - intros <-. by left.
  - destruct (Ascii.eqb_spec c ".") as [->|Hc].
    + simpl. intros <-. right. by exists k.
    + pose proof (split_nonempty "." k) as Hne.
      destruct (Py.split "." k) as [|t' ts] eqn:Hs; [congruence|].
      simpl. intros <-. simpl in IH.
      destruct (IH t' eq_refl) as [->|(rest & ->)].
      * by left.
      * right. by exists rest.
Qed.


(** ** Dictionaries *)

Section dict_facts.
Context {V : Type}.
Implicit Types (d o : Dict.t V) (k : string) (v : V).

Lemma get_None_keys d k : Dict.get d k = None ↔ k ∉ Dict.keys d.
Proof.
  induction d as [|[k' v'] d IH]; simpl.
  - split; [intros _; apply not_elem_of_nil | done].
  - rewrite not_elem_of_cons. destruct (String.eqb_spec k' k) as [->|Hne].
    + split; [discriminate | intros [? _]; congruence].
    + rewrite IH. split; [intros ?; split; [congruence|done] | intros [_ ?]; done].
Qed.

Lemma get_Some_elem d k v : Dict.get d k = Some v → (k, v) ∈ d.
Proof.
  induction d as [|[k' v'] d IH]; simpl; [discriminate|].
  destruct (String.eqb_spec k' k) as [->|Hne].
  - intros [= ->]. apply list_elem_of_here.
  - intros H. apply list_elem_of_further, IH, H.
Qed.

Lemma get_Some_keys d k v : Dict.get d k = Some v → k ∈ Dict.keys d.
Proof.
  intros H. apply get_Some_elem in H.
  unfold Dict.keys. apply list_elem_of_fmap. by exists (k, v).
Qed.

Lemma elem_get d k v : Dict.wf d → (k, v) ∈ d → Dict.get d k = Some v.
Proof.
  unfold Dict.wf, Dict.keys. induction d as [|[k' v'] d IH]; simpl.
  - intros _ H. by apply elem_of_nil in H.
  - rewrite NoDup_cons. intros [Hk' Hnd] Hin.
    apply elem_of_cons in Hin as [[= -> ->]|Hin].
    + by rewrite String.eqb_refl.
    + destruct (String.eqb_spec k' k) as [->|Hne]; [|by apply IH].
      exfalso. apply Hk'. apply list_elem_of_fmap. by exists (k, v).
Qed.

Lemma contains_true d k : Dict.contains k d = true ↔ k ∈ Dict.keys d.
Proof.
  unfold Dict.contains. destruct (Dict.get d k) as [v|] eqn:Hg.
  - split; [intros _; by eapply get_Some_keys | done].
  - split; [discriminate | intros Hin; by apply get_None_keys in Hg].
Qed.

Lemma get_set d k v k' :
  Dict.get (Dict.set k v d) k' = if decide (k = k') then Some v else Dict.get d k'.
Proof.
  induction d as [|[k0 v0] d IH]; simpl.
  - destruct (String.eqb_spec k k'), (decide (k = k')); congruence.
  - destruct (String.eqb_spec k0 k) as [->|Hne]; simpl.
    + destruct (String.eqb_spec k k'), (decide (k = k')); congruence.
    + destruct (String.eqb_spec k0 k') as [->|Hne'].
      * destruct (decide (k = k')); congruence.
      * exact IH.
Qed.

Lemma keys_set_old d k v : k ∈ Dict.keys d → Dict.keys (Dict.set k v d) = Dict.keys d.
Proof.
  unfold Dict.keys. induction d as [|[k0 v0] d IH]; simpl.
  - intros H. by apply elem_of_nil in H.
  - intros Hin. destruct (String.eqb_spec k0 k) as [->|Hne]; [done|].
    simpl. f_equal. apply IH. apply elem_of_cons in Hin as [?|?]; [congruence | done].
Qed.

Lemma set_new d k v : k ∉ Dict.keys d → Dict.set k v d = d ++ [(k, v)].
Proof.
  unfold Dict.keys. induction d as [|[k0 v0] d IH]; simpl; [done|].
  rewrite not_elem_of_cons. intros [Hne Hnin].
  destruct (String.eqb_spec k0 k) as [->|_]; [done|].
  f_equal. by apply IH.
Qed.

(** Inserting the items of a dictionary one by one after entries with other
    keys appends them. *)
Lemma update_app d o : Dict.wf (d ++ o) → Dict.update d o = d ++ o.
Proof.
  unfold Dict.update. revert d. induction o as [|[k v] o IH]; intros d Hwf; simpl.
  - by rewrite app_nil_r.
  - replace (d ++ (k, v) :: o) with ((d ++ [(k, v)]) ++ o) in * by by rewrite <- app_assoc.
    rewrite set_new.
    + by apply IH.
    + unfold Dict.wf, Dict.keys in Hwf.
      rewrite !fmap_app in Hwf. apply NoDup_app in Hwf as [Hd _].
      apply NoDup_app in Hd as (_ & Hdisj & _).
      intros Hin. apply (Hdisj k Hin). apply list_elem_of_singleton. done.
Qed.

Lemma update_nil o : Dict.wf o → Dict.update [] o = o.
Proof. intros Hwf. by apply (update_app []). Qed.

Lemma get_update d o k :
  Dict.wf o →
  Dict.get (Dict.update d o) k =
    match Dict.get o k with
    | Some v => Some v
    | None => Dict.get d k
    end.
Proof.
  unfold Dict.update, Dict.wf, Dict.keys.
  revert d. induction o as [|[k0 v0] o IH]; intros d Hwf; simpl; [done|].
  apply NoDup_cons in Hwf as [Hk0 Hnd]. simpl in Hk0.
  rewrite (IH _ Hnd), get_set.
  destruct (String.eqb_spec k0 k) as [->|Hne].
  - apply get_None_keys in Hk0. rewrite Hk0. by rewrite decide_True.
  - by rewrite decide_False.
Qed.

Lemma keys_update d o :
  Dict.keys o ⊆ Dict.keys d → Dict.keys (Dict.update d o) = Dict.keys d.
Proof.
  unfold Dict.update. revert d. induction o as [|[k0 v0] o IH]; intros d Hsub; simpl; [done|].
  assert (Hk0 : k0 ∈ Dict.keys d) by (apply Hsub; apply list_elem_of_here).
  rewrite IH; rewrite keys_set_old by done; [done|].
  intros k Hk. apply Hsub. by apply list_elem_of_further.
Qed.

End dict_facts.

(** ** The renaming loop of [load_state_dict] *)

Lemma rename_step_eq {T : Type} (compile_mode : bool) (d : Dict.t T) (kv : string * T) :
  rename_step compile_mode d kv =
    if compile_mode && negb (String.eqb (prefix_token kv.1) compile_state)
    then Raise not_compiled
    else Return (Dict.set (rename_key compile_mode (prefix_token kv.1) kv.1) kv.2 d).
Proof. unfold rename_step. by rewrite getitem_split_0. Qed.

(** A key goes through unchanged exactly when its first token is the marker
    in compile mode, and is not the marker otherwise. *)
Lemma rename_key_keep (compile_mode : bool) (k : string) :
  String.eqb (prefix_token k) compile_state = compile_mode →
  rename_key compile_mode (prefix_token k) k = k.
Proof. unfold rename_key. intros ->. by destruct compile_mode. Qed.

Lemma rename_step_keep {T : Type} (compile_mode : bool) (d : Dict.t T) (kv : string * T) :
  String.eqb (prefix_token kv.1) compile_state = compile_mode →
  rename_step compile_mode d kv = Return (Dict.set kv.1 kv.2 d).
Proof.
  intros H. rewrite rename_step_eq, rename_key_keep by done.
  rewrite H. by destruct compile_mode.
Qed.

Lemma rename_loop_keep {T : Type} (compile_mode : bool) (items d : Dict.t T) :
  Forall (λ kv, String.eqb (prefix_token kv.1) compile_state = compile_mode) items →
  rename_loop compile_mode items d = Return (Dict.update d items).
Proof.
  intros H. revert d. induction H as [|kv items Hkv _ IH]; intros d; simpl; [done|].
  rewrite rename_step_keep by done. simpl. apply IH.
Qed.

Lemma rename_loop_compiled_raises {T : Type} (items d : Dict.t T) :
  Exists (λ kv, prefix_token kv.1 ≠ compile_state) items →
  rename_loop true items d = Raise not_compiled.
Proof.
  revert d. induction items as [|kv items IH]; intros d Hex.
  - by apply Exists_nil in Hex.
  - simpl. rewrite rename_step_eq.
    destruct (String.eqb_spec (prefix_token kv.1) compile_state) as [Heq|Hne]; simpl; [|done].
    apply IH. apply Exists_cons in Hex as [?|?]; [congruence | done].
Qed.

Lemma rename_loop_compiled_returns {T : Type} (items d d' : Dict.t T) :
  rename_loop true items d = Return d' →
  Forall (λ kv, prefix_token kv.1 = compile_state) items.
Proof.
  revert d. induction items as [|kv items IH]; intros d Hret; [constructor|].
  simpl in Hret. apply bind_returns_inv in Hret as (d1 & Hstep & Hrest).
  rewrite rename_step_eq in Hstep.
  destruct (String.eqb_spec (prefix_token kv.1) compile_state) as [Heq|Hne];
    simpl in Hstep; [|discriminate].
  constructor; [done | by eapply IH].
Qed.

(** Where the loop does not raise, it stores each entry under its key, cut
    by 10 characters when the key carries the marker out of compile mode. *)
Lemma rename_loop_fold {T : Type} (compile_mode : bool) (items d : Dict.t T) :
  Forall (λ kv, compile_mode && negb (String.eqb (prefix_token kv.1) compile_state)
                = false) items →
  rename_loop compile_mode items d
  = Return (fold_left (λ d kv,
              Dict.set (if negb compile_mode
                           && String.eqb (prefix_token kv.1) compile_state
                        then Py.slice_from 10 kv.1 else kv.1) kv.2 d) items d).
Proof.
  intros Hall. revert d. induction Hall as [|kv items Hkv _ IH]; intros d; [done|].
  cbn [rename_loop fold_left]. rewrite rename_step_eq, Hkv. simpl. rewrite IH.
  do 3 f_equal. unfold rename_key. rewrite Hkv. done.
Qed.

Lemma fold_set_fresh {V : Type} (f : string → string) (items d : Dict.t V) :
  NoDup (Dict.keys d ++ (f ∘ fst <$> items)) →
  fold_left (λ d kv, Dict.set (f kv.1) kv.2 d) items d
  = d ++ ((λ kv, (f kv.1, kv.2)) <$> items).
Proof.
  revert d. induction items as [|kv items IH]; intros d Hnd; simpl.
  - by rewrite app_nil_r.
  - simpl in Hnd. apply NoDup_app in Hnd as Hparts.
    destruct Hparts as (Hd & Hfresh & Hitems).
    rewrite set_new.
    + rewrite IH.
      * by rewrite <- app_assoc.
      * unfold Dict.keys. rewrite fmap_app. simpl. rewrite <- app_assoc. exact Hnd.
    + intros Hin. apply (Hfresh _ Hin). left.
Qed.

(** ** Filtering by key and size, merging, loading *)

Section loader_facts.
Context {T : Type} `{!nn.Tensor T}.
Implicit Types (m s : Dict.t T) (k : string).

Lemma keys_matching m s : Dict.keys (matching m s) ⊆ Dict.keys s.
Proof.
  unfold matching, Dict.keys. induction s as [|[k v] s IH]; simpl; [done|].
  match goal with |- context [if ?c then _ else _] => destruct c end; simpl.
  - intros x Hx. apply elem_of_cons in Hx as [->|Hx].
    + apply list_elem_of_here.
    + apply list_elem_of_further, IH, Hx.
  - intros x Hx. apply list_elem_of_further, IH, Hx.
Qed.

Lemma wf_matching m s : Dict.wf s → Dict.wf (matching m s).
Proof.
  unfold Dict.wf. pose proof (keys_matching m) as Hsub. revert Hsub.
  unfold matching, Dict.keys. intros Hsub.
  induction s as [|[k v] s IH]; simpl; [done|].
  rewrite NoDup_cons. intros [Hk Hnd].
  match goal with |- context [if ?c then _ else _] => destruct c end; simpl.
  - apply NoDup_cons. split; [|by apply IH].
    intros Hin. apply Hk. by apply (Hsub s).
  - by apply IH.
Qed.

Lemma get_matching m s k :
  Dict.wf s →
  Dict.get (matching m s) k =
    match Dict.get s k, Dict.get m k with
    | Some new, Some old =>
        if decide (nn.tensor_size new = nn.tensor_size old) then Some new else None
    | _, _ => None
    end.
Proof.
  unfold Dict.wf. intros Hwf.
  assert (Hnone : ∀ s', k ∉ Dict.keys s' → Dict.get (matching m s') k = None).
  { intros s' Hk. apply get_None_keys. intros Hin. by apply Hk, (keys_matching m). }
  induction s as [|[k0 v0] s IH]; [done|].
  apply NoDup_cons in Hwf as [Hk0 Hnd]. simpl in Hk0.
  change (matching m ((k0, v0) :: s))
    with (if Dict.contains k0 m
             && match Dict.get m k0 with
                | Some w => bool_decide (nn.tensor_size v0 = nn.tensor_size w)
                | None => false
                end
          then (k0, v0) :: matching m s else matching m s).
  simpl. destruct (String.eqb_spec k0 k) as [->|Hne].
  - unfold Dict.contains. destruct (Dict.get m k) as [old|]; simpl.
    + rewrite bool_decide_decide. destruct (decide _); simpl.
      * by rewrite String.eqb_refl.
      * by apply Hnone.
    + by apply Hnone.
  - match goal with |- context [if ?c then _ else _] => destruct c end; simpl.
    + destruct (String.eqb_spec k0 k); [done | by apply IH].
    + by apply IH.
Qed.

Lemma keys_matching_model m s : Dict.keys (matching m s) ⊆ Dict.keys m.
Proof.
  unfold matching, Dict.keys. induction s as [|[k v] s IH]; simpl.
  - intros x Hx. by apply elem_of_nil in Hx.
  - destruct (Dict.contains k m) eqn:Hc; simpl; [|done].
    match goal with |- context [if ?c then _ else _] => destruct c end; simpl; [|done].
    intros x Hx. apply elem_of_cons in Hx as [->|Hx]; [by apply contains_true | by apply IH].
Qed.

Lemma keys_merged m s : Dict.keys (merged m s) = Dict.keys m.
Proof. apply keys_update, keys_matching_model. Qed.

Lemma get_merged m s k :
  Dict.wf s →
  Dict.get (merged m s) k =
    match Dict.get m k, Dict.get s k with
    | Some old, Some new =>
        if decide (nn.tensor_size new = nn.tensor_size old) then Some new else Some old
    | Some old, None => Some old
    | None, _ => None
    end.
Proof.
  intros Hwf. unfold merged.
  rewrite get_update by by apply wf_matching.
  rewrite get_matching by done.
  destruct (Dict.get s k) as [new|], (Dict.get m k) as [old|]; try done.
  by destruct (decide _).
Qed.

End loader_facts.

Section strict_load.
Context {T : Type} `{!nn.Tensor T}.

Lemma fill_from_same_keys (p s s0 : Dict.t T) :
  Dict.wf p →
  Dict.keys s = Dict.keys p →
  (∀ kv, kv ∈ p → Dict.get s0 kv.1 = Dict.get s kv.1) →
  map (λ kv, (kv.1, default kv.2 (Dict.get s0 kv.1))) p = s.
Proof.
  unfold Dict.wf, Dict.keys. revert s.
  induction p as [|[k v] p IH]; intros s Hwf Hkeys Hget.
  - by destruct s.
  - destruct s as [|[k' w] s]; [done|]. simpl in Hkeys. injection Hkeys as -> Hkeys.
    apply NoDup_cons in Hwf as [Hk Hnd]. simpl in Hk. simpl. f_equal.
    + pose proof (Hget (k, v) (list_elem_of_here _ _)) as Hhd. simpl in Hhd.
      by rewrite Hhd, String.eqb_refl.
    + apply IH; [done..|]. intros kv Hkv.
      pose proof (Hget kv (list_elem_of_further _ _ _ Hkv)) as Htl. simpl in Htl.
      rewrite Htl. destruct (String.eqb_spec k kv.1) as [->|_]; [|done].
      exfalso. apply Hk. by apply list_elem_of_fmap_2.
Qed.

(** The strict load accepts a mapping with the model's keys and sizes, and
    the model then holds exactly that mapping. *)
Lemma nn_load_state_dict_same_keys (model : nn.Module_ T) (sd : Dict.t T) :
  Dict.wf (nn.parameters model) →
  Dict.keys sd = Dict.keys (nn.parameters model) →
  (∀ k old new, Dict.get (nn.parameters model) k = Some old → Dict.get sd k = Some new →
                nn.tensor_size new = nn.tensor_size old) →
  nn.load_state_dict model sd = Return {| nn.parameters := sd |}.
Proof.
  intros Hwf Hkeys Hsize. unfold nn.load_state_dict.
  assert (Hload : nn.loadable model sd = true).
  { unfold nn.loadable. rewrite !andb_true_iff. repeat split; apply forallb_forall.
    - intros k Hk. apply contains_true. rewrite Hkeys. by apply list_elem_of_In.
    - intros k Hk. apply contains_true. rewrite <- Hkeys. by apply list_elem_of_In.
    - intros [k old] Hin. apply list_elem_of_In in Hin. simpl.
      assert (Hold : Dict.get (nn.parameters model) k = Some old) by by apply elem_get.
      destruct (Dict.get sd k) as [new|] eqn:Hnew.
      + apply bool_decide_eq_true. by eapply Hsize.
      + apply get_None_keys in Hnew. exfalso. apply Hnew. rewrite Hkeys.
        by eapply get_Some_keys. }
  rewrite Hload. do 2 f_equal. by apply fill_from_same_keys.
Qed.

Lemma load_merged (model : nn.Module_ T) (s : Dict.t T) :
  Dict.wf (nn.parameters model) → Dict.wf s →
  nn.load_state_dict model (merged (nn.state_dict model) s)
  = Return {| nn.parameters := merged (nn.parameters model) s |}.
Proof.
  intros Hm Hs. unfold nn.state_dict. apply nn_load_state_dict_same_keys; [done|apply keys_merged|].
  intros k old new Hold. rewrite get_merged, Hold by done.
  destruct (Dict.get s k) as [new'|]; [destruct (decide _)|]; intros [= <-]; done.
Qed.

End strict_load.

(** ** Properties of [load_state_dict] *)

(** C1.  With [compile_mode = False] and a source none of whose keys starts
    with the compiled marker, the renaming loop gives back the source as it
    is, the call returns, and the model then holds the merged mapping: it has
    the keys of the target, in the target's order, and under each key the
    source's tensor when the source has that key with a tensor of the
    target's size, and the target's own tensor otherwise. *)
Theorem load_state_dict_unmarked_merges {T : Type} `{!nn.Tensor T}
  (model : nn.Module_ T) (state_dict : Dict.t T) :
  Dict.wf (nn.parameters model) →
  Dict.wf state_dict →
  Forall (λ kv, prefix_token kv.1 ≠ compile_state) state_dict →
  rename_loop false state_dict [] = Return state_dict
  ∧ ∃ model',
      load_state_dict model false state_dict = Return model'
      ∧ nn.parameters model' = merged (nn.parameters model) state_dict
      ∧ Dict.keys (nn.parameters model') = Dict.keys (nn.parameters model)
      ∧ ∀ k, Dict.get (nn.parameters model') k =
             match Dict.get (nn.parameters model) k, Dict.get state_dict k with
             | Some old, Some new =>
                 if decide (nn.tensor_size new = nn.tensor_size old)
                 then Some new else Some old
             | Some old, None => Some old
             | None, _ => None
             end.
Proof.
  intros Hm Hs Hplain.
  assert (Hloop : rename_loop false state_dict [] = Return state_dict).
  { rewrite rename_loop_keep, update_nil; [done..|].
    eapply Forall_impl; [exact Hplain|]. intros kv Hkv. simpl in Hkv.
    by destruct (String.eqb_spec (prefix_token kv.1) compile_state). }
  split; [exact Hloop|].
  exists {| nn.parameters := merged (nn.parameters model) state_dict |}.
  split; [|split; [done|split]]; simpl.
  - unfold load_state_dict. rewrite Hloop. simpl. by apply load_merged.
  - apply keys_merged.
  - intros k. by apply get_merged.
Qed.

(** C2.  In compile mode, a source with a key whose first token is not
    ["_orig_mod"] makes the call raise the "model is not compiled"
    RuntimeError. *)
Theorem load_state_dict_compiled_mismatch_raises {T : Type} `{!nn.Tensor T}
  (model : nn.Module_ T) (state_dict : Dict.t T) :
  Exists (λ kv, prefix_token kv.1 ≠ compile_state) state_dict →
  load_state_dict model true state_dict = Raise not_compiled.
Proof.
  intros Hex. unfold load_state_dict.
  by rewrite rename_loop_compiled_raises.
Qed.

(** C3, as amended.  In compile mode a key whose first token is not the
    marker makes the renaming loop, and with it the call, raise: the marker
    is never prepended.  In every other case the loop returns the dictionary
    made by storing the entries in the order of the source, each under its
    key without the first 10 characters when the call is out of compile mode
    and the first token is the marker, and under its key as it is otherwise;
    the call loads the merge of that dictionary.  When the names so given
    differ from one another, the dictionary is the source with each key
    renamed, in the same order. *)
Theorem load_state_dict_renames {T : Type} `{!nn.Tensor T} (model : nn.Module_ T)
  (compile_mode : bool) (state_dict : Dict.t T) :
  let name := λ k : string,
    if negb compile_mode && String.eqb (prefix_token k) compile_state
    then Py.slice_from 10 k else k in
  let renamed := fold_left (λ d kv, Dict.set (name kv.1) kv.2 d) state_dict [] in
  (compile_mode = true →
   Exists (λ kv, prefix_token kv.1 ≠ compile_state) state_dict →
   rename_loop compile_mode state_dict [] = Raise not_compiled
   ∧ load_state_dict model compile_mode state_dict = Raise not_compiled)
  ∧ (compile_mode = false
     ∨ Forall (λ kv, prefix_token kv.1 = compile_state) state_dict →
     rename_loop compile_mode state_dict [] = Return renamed
     ∧ load_state_dict model compile_mode state_dict
       = nn.load_state_dict model (merged (nn.state_dict model) renamed)
     ∧ (NoDup (name <$> Dict.keys state_dict) →
        renamed = (λ kv, (name kv.1, kv.2)) <$> state_dict)).
Proof.
  intros name renamed. split.
  - intros -> Hex. unfold load_state_dict.
    by rewrite rename_loop_compiled_raises.
  - intros Hcase.
    assert (Hloop : rename_loop compile_mode state_dict [] = Return renamed).
    { subst renamed. apply rename_loop_fold.
      destruct Hcase as [->|Hall]; [by apply Forall_true|].
      eapply Forall_impl; [exact Hall|]. intros kv Hkv. simpl in Hkv.
      rewrite Hkv, String.eqb_refl. by destruct compile_mode. }
    split; [exact Hloop|]. split.
    + unfold load_state_dict. by rewrite Hloop.
    + intros Hnames. subst renamed.
      rewrite fold_set_fresh; [done|].
      simpl. unfold Dict.keys in Hnames. by rewrite <- list_fmap_compose in Hnames.
Qed.

(** C10.  A call in compile mode that returns has met only keys whose first
    token is the marker: for each of them the test that guards both the
    [raise] and the marker-prepending branch is false, the name computed is
    the key itself, and the turn of the loop stores the entry under its own
    key; the renamed dictionary is the source. *)
Theorem load_state_dict_compiled_keeps_keys {T : Type} `{!nn.Tensor T}
  (model model' : nn.Module_ T) (state_dict : Dict.t T) :
  load_state_dict model true state_dict = Return model' →
  Forall (λ kv, prefix_token kv.1 = compile_state
                ∧ true && negb (String.eqb (prefix_token kv.1) compile_state) = false
                ∧ rename_key true (prefix_token kv.1) kv.1 = kv.1
                ∧ ∀ d : Dict.t T, rename_step true d kv = Return (Dict.set kv.1 kv.2 d))
         state_dict
  ∧ rename_loop true state_dict [] = Return (Dict.update [] state_dict)
  ∧ (Dict.wf state_dict → rename_loop true state_dict [] = Return state_dict).
Proof.
  intros Hret. unfold load_state_dict in Hret.
  apply bind_returns_inv in Hret as (renamed & Hloop & _).
  apply rename_loop_compiled_returns in Hloop as Hall.
  assert (Hkeep : Forall (λ kv, String.eqb (prefix_token kv.1) compile_state = true)
                         state_dict).
  { eapply Forall_impl; [exact Hall|]. intros kv Hkv. simpl in Hkv.
    rewrite Hkv. apply String.eqb_refl. }
  split; [|split].
  - eapply Forall_impl; [exact Hkeep|]. intros kv Hkv. simpl in Hkv.
    split; [by apply String.eqb_eq|]. split; [by rewrite Hkv|].
    split; [by apply rename_key_keep|]. intros d. by apply rename_step_keep.
  - by apply rename_loop_keep.
  - intros Hwf. rewrite rename_loop_keep by done. by rewrite update_nil.
Qed.

(** *** At concrete inputs *)

Lemma load_state_dict_unmarked_merges_witness :
  Dict.get (nn.parameters Fixtures.target_a) "b" = None
  ∧ ∃ model',
      load_state_dict Fixtures.target_a false Fixtures.source_ab = Return model'
      ∧ Dict.get (nn.parameters model') "a" = Some Fixtures.ones3
      ∧ Dict.get (nn.parameters model') "b" = None.
Proof.
  split; [reflexivity|].
  destruct (load_state_dict_unmarked_merges Fixtures.target_a Fixtures.source_ab)
    as (_ & model' & Hload & _ & _ & Hget).
  - unfold Dict.wf. simpl. apply NoDup_singleton.
  - unfold Dict.wf. simpl. apply NoDup_cons. split; [|apply NoDup_singleton].
    rewrite list_elem_of_singleton. discriminate.
  - repeat constructor; simpl; discriminate.
  - exists model'. split; [exact Hload|]. split; rewrite Hget; reflexivity.
Defined.

Lemma load_state_dict_compiled_mismatch_raises_witness :
  load_state_dict Fixtures.compiled_a true Fixtures.source_mixed = Raise not_compiled.
Proof.
  apply load_state_dict_compiled_mismatch_raises.
  apply Exists_cons_tl, Exists_cons_hd. simpl. discriminate.
Defined.

Lemma load_state_dict_renames_witness :
  rename_loop false Fixtures.source_mixed [] = Return Fixtures.source_ab
  ∧ load_state_dict Fixtures.target_a false Fixtures.source_mixed
    = Return {| nn.parameters := [("a", Fixtures.ones3)] |}.
Proof.
  destruct (load_state_dict_renames Fixtures.target_a false Fixtures.source_mixed)
    as [_ Hreturns].
  destruct Hreturns as (Hloop & Hload & Hnames); [by left|].
  split.
  - rewrite Hloop, Hnames; [reflexivity|].
    simpl. apply NoDup_cons. split; [|apply NoDup_singleton].
    rewrite list_elem_of_singleton. discriminate.
  - rewrite Hload. reflexivity.
Defined.

(** C3 as stated fails: in compile mode a key without the marker is not
    stored under the marker, a dot and the key; the loop raises, and so does
    the call. *)
Lemma rename_loop_never_prepends :
  rename_loop true [("conv.weight", Fixtures.ones3)] [] = Raise not_compiled
  ∧ rename_loop true [("conv.weight", Fixtures.ones3)] []
    ≠ Return [("_orig_mod.conv.weight", Fixtures.ones3)]
  ∧ load_state_dict Fixtures.compiled_a true [("a", Fixtures.ones3)] = Raise not_compiled.
Proof. split; [reflexivity|]. split; [discriminate | reflexivity]. Qed.

Lemma load_state_dict_compiled_keeps_keys_witness :
  load_state_dict Fixtures.compiled_a true Fixtures.source_compiled
  = Return {| nn.parameters := [("_orig_mod.a", Fixtures.ones3)] |}
  ∧ rename_loop true Fixtures.source_compiled [] = Return Fixtures.source_compiled.
Proof.
  assert (Hret : load_state_dict Fixtures.compiled_a true Fixtures.source_compiled
                 = Return {| nn.parameters := [("_orig_mod.a", Fixtures.ones3)] |})
    by reflexivity.
  split; [exact Hret|].
  destruct (load_state_dict_compiled_keeps_keys _ _ _ Hret) as (_ & _ & Hsame).
  apply Hsame. unfold Dict.wf. simpl. apply NoDup_cons. split; [|apply NoDup_singleton].
  rewrite list_elem_of_singleton. discriminate.
Defined.

(** ** Floating-point rounding *)

(** *** Powers of two *)

Lemma pow2_pos (e : Z) : (0 < 2 ^ e)%Q.
Proof. by apply Qpower_0_lt. Qed.

Lemma pow2_add (a b : Z) : (2 ^ (a + b) == 2 ^ a * 2 ^ b)%Q.
Proof. by apply Qpower_plus. Qed.

Lemma pow2_succ (e : Z) : (2 ^ (e + 1) == 2 * 2 ^ e)%Q.
Proof. rewrite pow2_add. rewrite Qpower_1_r. ring. Qed.

Lemma pow2_pred (e : Z) : (2 ^ e == 2 * 2 ^ (e - 1))%Q.
Proof. rewrite <- pow2_succ. by replace (e - 1 + 1)%Z with e by lia. Qed.

Lemma pow2_le (a b : Z) : (a ≤ b)%Z → (2 ^ a <= 2 ^ b)%Q.
Proof. intros H. by apply Qpower_le_compat_l. Qed.

Lemma pow2_lt (a b : Z) : (a < b)%Z → (2 ^ a < 2 ^ b)%Q.
Proof. intros H. by apply Qpower_lt_compat_l. Qed.

Lemma pow2_lt_inv (a b : Z) : (2 ^ a < 2 ^ b)%Q → (a < b)%Z.
Proof. intros H. by apply (Qpower_lt_compat_l_inv 2). Qed.

Lemma pow2_Z (k : Z) : (0 ≤ k)%Z → (2 ^ k == inject_Z (2 ^ k))%Q.
Proof. intros H. by rewrite Zpower_Qpower. Qed.

Lemma pow2_div (a b : Z) : (2 ^ a / 2 ^ b == 2 ^ (a - b))%Q.
Proof. symmetry. by apply Qpower_minus. Qed.

(** *** The exponent *)

Lemma exponent_spec (x : Q) :
  (0 < x)%Q → (2 ^ Float.exponent x <= x)%Q ∧ (x < 2 ^ (Float.exponent x + 1))%Q.
Proof.
  intros Hx. unfold Float.exponent.
  destruct x as [n d]. cbn [Qnum Qden].
  assert (Hn : (0 < n)%Z).
  { unfold Qlt in Hx. simpl in Hx. lia. }
  set (ln := Z.log2 n). set (ld := Z.log2 (Z.pos d)).
  destruct (Z.log2_spec n Hn) as [Hn1 Hn2]. fold ln in Hn1, Hn2.
  destruct (Z.log2_spec (Z.pos d) ltac:(lia)) as [Hd1 Hd2]. fold ld in Hd1, Hd2.
  assert (Hln : (0 ≤ ln)%Z) by apply Z.log2_nonneg.
  assert (Hld : (0 ≤ ld)%Z) by apply Z.log2_nonneg.
  assert (Hx_eq : (n # d == inject_Z n / inject_Z (Z.pos d))%Q) by apply Qmake_Qdiv.
  assert (Hdpos : (0 < inject_Z (Z.pos d))%Q) by (unfold Qlt; simpl; lia).
  (* the bounds on the numerator and the denominator, in Q *)
  assert (Qn1 : (2 ^ ln <= inject_Z n)%Q).
  { rewrite pow2_Z by done. by rewrite <- Zle_Qle. }
  assert (Qn2 : (inject_Z n < 2 ^ (ln + 1))%Q).
  { rewrite pow2_Z by lia. rewrite <- Zlt_Qlt. by rewrite <- Z.add_1_r in Hn2. }
  assert (Qd1 : (2 ^ ld <= inject_Z (Z.pos d))%Q).
  { rewrite pow2_Z by done. by rewrite <- Zle_Qle. }
  assert (Qd2 : (inject_Z (Z.pos d) < 2 ^ (ld + 1))%Q).
  { rewrite pow2_Z by lia. rewrite <- Zlt_Qlt. by rewrite <- Z.add_1_r in Hd2. }
  assert (Hlow : (2 ^ (ln - ld - 1) < n # d)%Q).
  { rewrite Hx_eq. apply Qlt_shift_div_l; [done|].
    assert (Hsplit : (2 ^ ln == 2 ^ (ln - ld - 1) * 2 ^ (ld + 1))%Q).
    { rewrite <- pow2_add. by replace (ln - ld - 1 + (ld + 1))%Z with ln by lia. }
    pose proof (pow2_pos (ln - ld - 1)). nra. }
  assert (Hhigh : (n # d < 2 ^ (ln - ld + 1))%Q).
  { rewrite Hx_eq. apply Qlt_shift_div_r; [done|].
    assert (Hsplit : (2 ^ (ln + 1) == 2 ^ (ln - ld + 1) * 2 ^ ld)%Q).
    { rewrite <- pow2_add. by replace (ln - ld + 1 + ld)%Z with (ln + 1)%Z by lia. }
    pose proof (pow2_pos (ln - ld + 1)). nra. }
  destruct (Qle_bool (2 ^ (ln - ld)) (n # d)) eqn:Hcmp.
  - apply Qle_bool_iff in Hcmp. split; [exact Hcmp | exact Hhigh].
  - assert (Hlt : (n # d < 2 ^ (ln - ld))%Q).
    { apply Qnot_le_lt. intros Hle. apply Qle_bool_iff in Hle. congruence. }
    split; [by apply Qlt_le_weak|].
    by replace (ln - ld - 1 + 1)%Z with (ln - ld)%Z by lia.
Qed.

Lemma exponent_unique (x : Q) (e : Z) :
  (2 ^ e <= x)%Q → (x < 2 ^ (e + 1))%Q → Float.exponent x = e.
Proof.
  intros Hlow Hhigh.
  assert (Hx : (0 < x)%Q) by (pose proof (pow2_pos e); lra).
  destruct (exponent_spec x Hx) as [Hlow' Hhigh'].
  assert (e < Float.exponent x + 1)%Z by (apply pow2_lt_inv; lra).
  assert (Float.exponent x < e + 1)%Z by (apply pow2_lt_inv; lra).
  lia.
Qed.

Lemma exponent_mono (x y : Q) :
  (0 < x)%Q → (x <= y)%Q → (Float.exponent x ≤ Float.exponent y)%Z.
Proof.
  intros Hx Hxy.
  destruct (exponent_spec x Hx) as [Hlow _].
  destruct (exponent_spec y ltac:(lra)) as [_ Hhigh].
  assert (Float.exponent x < Float.exponent y + 1)%Z by (apply pow2_lt_inv; lra).
  lia.
Qed.

(** *** The nearest integer *)

Lemma nearest_even_cases (t : Q) :
  let f := Qfloor t in
  (inject_Z f <= t)%Q ∧ (t < inject_Z f + 1)%Q
  ∧ ((t - inject_Z f < 1 # 2)%Q ∧ Float.nearest_even t = f
     ∨ (t - inject_Z f == 1 # 2)%Q
       ∧ Float.nearest_even t = (if Z.even f then f else f + 1)%Z
     ∨ (1 # 2 < t - inject_Z f)%Q ∧ Float.nearest_even t = (f + 1)%Z).
Proof.
  intros f. pose proof (Qfloor_le t) as Hlow. pose proof (Qlt_floor t) as Hhigh.
  fold f in Hlow, Hhigh.
  split; [done|]. split.
  { rewrite inject_Z_plus in Hhigh. exact Hhigh. }
  unfold Float.nearest_even. fold f.
  destruct (Qcompare_spec (t - inject_Z f) (1 # 2)) as [Heq|Hlt|Hgt]; auto.
Qed.

Lemma nearest_even_error (t : Q) :
  (inject_Z (Float.nearest_even t) - t <= 1 # 2)%Q
  ∧ (t - inject_Z (Float.nearest_even t) <= 1 # 2)%Q.
Proof.
  destruct (nearest_even_cases t) as (Hlow & Hhigh & [[H ->]|[[H ->]|[H ->]]]).
  - lra.
  - destruct (Z.even (Qfloor t)); [lra|]. rewrite inject_Z_plus.
    change (inject_Z 1) with 1%Q. lra.
  - rewrite inject_Z_plus. change (inject_Z 1) with 1%Q. lra.
Qed.

Lemma nearest_even_mono (t t' : Q) :
  (t <= t')%Q → (Float.nearest_even t ≤ Float.nearest_even t')%Z.
Proof.
  intros Htt'. pose proof (Qfloor_resp_le _ _ Htt') as Hfloor.
  destruct (nearest_even_cases t) as (Hlow & Hhigh & Ht).
  destruct (nearest_even_cases t') as (Hlow' & Hhigh' & Ht').
  destruct (decide (Qfloor t = Qfloor t')) as [Heq|Hne].
  - rewrite <- Heq in *.
    destruct Ht as [[H ->]|[[H ->]|[H ->]]], Ht' as [[H' ->]|[[H' ->]|[H' ->]]];
      try lia; try lra; destruct (Z.even (Qfloor t)); try lia; lra.
  - assert (Hlt : (Qfloor t + 1 ≤ Qfloor t')%Z) by lia.
    assert (Hup : (Float.nearest_even t ≤ Qfloor t + 1)%Z).
    { destruct Ht as [[H ->]|[[H ->]|[H ->]]]; try lia.
      destruct (Z.even (Qfloor t)); lia. }
    assert (Hdown : (Qfloor t' ≤ Float.nearest_even t')%Z).
    { destruct Ht' as [[H ->]|[[H ->]|[H ->]]]; try lia.
      destruct (Z.even (Qfloor t')); lia. }
    lia.
Qed.

Lemma nearest_even_Z (t : Q) (z : Z) : (t == inject_Z z)%Q → Float.nearest_even t = z.
Proof.
  intros Ht.
  assert (Hfloor : Qfloor t = z).
  { rewrite (Qfloor_comp _ _ Ht). apply Qfloor_Z. }
  destruct (nearest_even_cases t) as (_ & _ & [[H ->]|[[H ->]|[H ->]]]);
    rewrite Hfloor in *; try done; lra.
Qed.

(** *** Rounding a positive number *)

Lemma ulp_exponent_mono (x y : Q) :
  (0 < x)%Q → (x <= y)%Q → (Float.ulp_exponent x ≤ Float.ulp_exponent y)%Z.
Proof.
  intros Hx Hxy. unfold Float.ulp_exponent.
  pose proof (exponent_mono x y Hx Hxy). lia.
Qed.

Lemma scaled (x : Q) (u : Z) : (x / 2 ^ u * 2 ^ u == x)%Q.
Proof. pose proof (pow2_pos u). field. lra. Qed.

Lemma round_pos_error (x : Q) :
  (Float.round_pos x - x <= 2 ^ (Float.ulp_exponent x - 1))%Q
  ∧ (x - Float.round_pos x <= 2 ^ (Float.ulp_exponent x - 1))%Q.
Proof.
  unfold Float.round_pos. set (u := Float.ulp_exponent x).
  pose proof (scaled x u) as Hx. pose proof (pow2_pos (u - 1)) as Hp.
  pose proof (pow2_pred u) as Hu.
  destruct (nearest_even_error (x / 2 ^ u)) as [Hup Hdown].
  set (m := inject_Z (Float.nearest_even (x / 2 ^ u))) in *.
  set (t := (x / 2 ^ u)%Q) in *. split; nra.
Qed.

Lemma round_pos_nonneg (x : Q) : (0 < x)%Q → (0 <= Float.round_pos x)%Q.
Proof.
  intros Hx. unfold Float.round_pos. set (u := Float.ulp_exponent x).
  pose proof (pow2_pos u) as Hp.
  assert (Ht : (0 <= x / 2 ^ u)%Q).
  { apply Qle_shift_div_l; [done|]. lra. }
  pose proof (nearest_even_mono _ _ Ht) as Hm.
  rewrite (nearest_even_Z 0 0) in Hm by done.
  assert (0 <= inject_Z (Float.nearest_even (x / 2 ^ u)))%Q.
  { change 0%Q with (inject_Z 0). by rewrite <- Zle_Qle. }
  nra.
Qed.

Lemma round_pos_mono (x y : Q) :
  (0 < x)%Q → (x <= y)%Q → (Float.round_pos x <= Float.round_pos y)%Q.
Proof.
  intros Hx Hxy.
  assert (Hy : (0 < y)%Q) by lra.
  pose proof (ulp_exponent_mono x y Hx Hxy) as Hu.
  unfold Float.round_pos.
  set (ux := Float.ulp_exponent x) in *. set (uy := Float.ulp_exponent y) in *.
  pose proof (pow2_pos ux) as Hpx. pose proof (pow2_pos uy) as Hpy.
  destruct (decide (ux = uy)) as [Heq|Hne].
  - rewrite <- Heq.
    assert (Ht : (x / 2 ^ ux <= y / 2 ^ ux)%Q).
    { apply Qle_shift_div_l; [done|]. rewrite scaled. done. }
    apply nearest_even_mono in Ht. rewrite Zle_Qle in Ht. nra.
  - assert (Hlt : (ux < uy)%Z) by lia.
    (* the exponents differ, and [y] is a normal number *)
    destruct (exponent_spec x Hx) as [_ Hx_high].
    destruct (exponent_spec y Hy) as [Hy_low _].
    assert (Hey : Float.exponent y = (uy + 52)%Z).
    { subst ux uy. unfold Float.ulp_exponent in *. lia. }
    assert (Hex : (Float.exponent x + 1 ≤ Float.exponent y)%Z).
    { subst ux uy. unfold Float.ulp_exponent in *. lia. }
    set (ey := Float.exponent y) in *.
    (* [round_pos x <= 2 ^ ey] *)
    assert (Hleft : (inject_Z (Float.nearest_even (x / 2 ^ ux)) * 2 ^ ux <= 2 ^ ey)%Q).
    { assert (Hk : (0 ≤ ey - ux)%Z) by lia.
      assert (Ht : (x / 2 ^ ux <= inject_Z (2 ^ (ey - ux)))%Q).
      { rewrite <- pow2_Z by done. rewrite <- pow2_div.
        apply Qle_shift_div_l; [done|]. rewrite scaled.
        pose proof (pow2_le (Float.exponent x + 1) ey Hex). lra. }
      apply nearest_even_mono in Ht.
      rewrite (nearest_even_Z (inject_Z (2 ^ (ey - ux))) (2 ^ (ey - ux))) in Ht by done.
      rewrite Zle_Qle in Ht. rewrite <- pow2_Z in Ht by done.
      pose proof (scaled (2 ^ ey) ux) as Hs. rewrite pow2_div in Hs. nra. }
    (* [2 ^ ey <= round_pos y] *)
    assert (Hright : (2 ^ ey <= inject_Z (Float.nearest_even (y / 2 ^ uy)) * 2 ^ uy)%Q).
    { assert (Ht : (inject_Z (2 ^ 52) <= y / 2 ^ uy)%Q).
      { rewrite <- pow2_Z by done. apply Qle_shift_div_l; [done|].
        rewrite <- pow2_add. replace (52 + uy)%Z with ey by lia. done. }
      apply nearest_even_mono in Ht.
      rewrite (nearest_even_Z (inject_Z (2 ^ 52)) (2 ^ 52)) in Ht by done.
      rewrite Zle_Qle in Ht. rewrite <- pow2_Z in Ht by done.
      assert (Hs : (2 ^ ey == 2 ^ 52 * 2 ^ uy)%Q).
      { rewrite <- pow2_add. by replace (52 + uy)%Z with ey by lia. }
      nra. }
    lra.
Qed.

(** *** Rounding *)

Lemma round_comp (x y : Q) : (x == y)%Q → Float.round x = Float.round y.
Proof. intros Hxy. unfold Float.round. by rewrite (Qred_complete _ _ Hxy). Qed.

(** [round] in terms of [round_pos], up to [==]. *)
Lemma round_cases (x : Q) :
  ∃ x', (x' == x)%Q
        ∧ ((x == 0)%Q ∧ (Float.round x == 0)%Q
           ∨ (0 < x)%Q ∧ (Float.round x == Float.round_pos x')%Q
           ∨ (x < 0)%Q ∧ (Float.round x == - Float.round_pos (- x'))%Q).
Proof.
  exists (Qred x). pose proof (Qred_correct x) as Hred. split; [done|].
  unfold Float.round. rewrite Qred_correct.
  destruct (Qcompare_spec (Qred x) 0) as [Heq|Hlt|Hgt].
  - left. split; [by rewrite <- Hred | done].
  - right; right. split; [by rewrite <- Hred | done].
  - right; left. split; [by rewrite <- Hred | done].
Qed.

Lemma round_mono (x y : Q) : (x <= y)%Q → (Float.round x <= Float.round y)%Q.
Proof.
  intros Hxy.
  destruct (round_cases x) as (x' & Hx' & [[Hx ->]|[[Hx ->]|[Hx ->]]]);
    destruct (round_cases y) as (y' & Hy' & [[Hy ->]|[[Hy ->]|[Hy ->]]]);
    try lra.
  - pose proof (round_pos_nonneg y'). lra.
  - apply round_pos_mono; lra.
  - pose proof (round_pos_nonneg (- x')). lra.
  - pose proof (round_pos_nonneg (- x')). pose proof (round_pos_nonneg y'). lra.
  - pose proof (round_pos_mono (- y') (- x')). lra.
Qed.

(** Half a unit in the last place bounds the error: below [2 ^ c] in
    magnitude, the unit is at most [2 ^ (c - 53)]. *)
Lemma round_pos_error_below (x : Q) (c : Z) :
  (-1021 ≤ c)%Z → (0 < x)%Q → (x < 2 ^ c)%Q →
  (Float.round_pos x - x <= 2 ^ (c - 54))%Q ∧ (x - Float.round_pos x <= 2 ^ (c - 54))%Q.
Proof.
  intros Hc Hx Hxc. destruct (exponent_spec x Hx) as [Hlow _].
  assert (He : (Float.exponent x < c)%Z) by (apply pow2_lt_inv; lra).
  assert (Hu : (Float.ulp_exponent x - 1 ≤ c - 54)%Z).
  { unfold Float.ulp_exponent. lia. }
  apply pow2_le in Hu. destruct (round_pos_error x). lra.
Qed.

Lemma round_error_below (x : Q) (c : Z) :
  (-1021 ≤ c)%Z → (- 2 ^ c < x)%Q → (x < 2 ^ c)%Q →
  (Float.round x - x <= 2 ^ (c - 54))%Q ∧ (x - Float.round x <= 2 ^ (c - 54))%Q.
Proof.
  intros Hc Hlow Hhigh. pose proof (pow2_pos (c - 54)) as Hp.
  destruct (round_cases x) as (x' & Hx' & [[Hx ->]|[[Hx ->]|[Hx ->]]]).
  - lra.
  - destruct (round_pos_error_below x' c); [done|lra..].
  - destruct (round_pos_error_below (- x') c) as [H1 H2]; [done|lra|lra|].
    lra.
Qed.

Lemma round_0 : Float.round 0 = 0%Q.
Proof. reflexivity. Qed.

Lemma round_1 : Float.round 1 = 1%Q.
Proof. by vm_compute. Qed.

(** ** Properties of [DecayLR] *)

Lemma Qeq_bool_inject_Z_nonzero (z : Z) : z ≠ 0%Z → Qeq_bool (inject_Z z) 0 = false.
Proof.
  intros Hz. destruct (Qeq_bool (inject_Z z) 0) eqn:E; [|done].
  apply Qeq_bool_iff in E. unfold Qeq, inject_Z in E. simpl in E. lia.
Qed.

Lemma Qeq_bool_inject_Z_zero : Qeq_bool (inject_Z 0) 0 = true.
Proof. reflexivity. Qed.

(** *** Quotients of integers *)

Section quotients.
Variable span : Z.
Hypothesis span_pos : (0 < span)%Z.

Lemma span_pos_Q : (0 < inject_Z span)%Q.
Proof. change 0%Q with (inject_Z 0). by rewrite <- Zlt_Qlt. Qed.

Lemma quotient_le (a b : Z) :
  (a ≤ b)%Z → (inject_Z a / inject_Z span <= inject_Z b / inject_Z span)%Q.
Proof.
  intros Hab. pose proof span_pos_Q as Hs. rewrite Zle_Qle in Hab.
  apply Qle_shift_div_l; [done|].
  assert (H : (inject_Z a / inject_Z span * inject_Z span == inject_Z a)%Q)
    by (field; lra).
  lra.
Qed.

Lemma quotient_succ (a : Z) :
  (inject_Z (a + 1) / inject_Z span
   == inject_Z a / inject_Z span + 1 / inject_Z span)%Q.
Proof.
  pose proof span_pos_Q as Hs. rewrite inject_Z_plus.
  change (inject_Z 1) with 1%Q. field. lra.
Qed.

Lemma quotient_0 : (inject_Z 0 / inject_Z span == 0)%Q.
Proof. pose proof span_pos_Q as Hs. change (inject_Z 0) with 0%Q. field. lra. Qed.

Lemma quotient_1 : (inject_Z span / inject_Z span == 1)%Q.
Proof. pose proof span_pos_Q as Hs. field. lra. Qed.

Lemma quotient_bound (a bound : Z) :
  (0 ≤ a ≤ bound)%Z →
  (0 <= inject_Z a / inject_Z span)%Q
  ∧ (inject_Z a / inject_Z span <= inject_Z bound)%Q.
Proof.
  intros [Ha Hb]. pose proof span_pos_Q as Hs.
  assert (H1 : (1 <= inject_Z span)%Q).
  { change 1%Q with (inject_Z 1). rewrite <- Zle_Qle. lia. }
  rewrite Zle_Qle in Ha, Hb. change (inject_Z 0) with 0%Q in Ha.
  split.
  - apply Qle_shift_div_l; [done|]. lra.
  - apply Qle_shift_div_r; [done|]. nra.
Qed.

Lemma inverse_bound (bound : Z) :
  (0 < bound)%Z → (span ≤ bound)%Z → (1 / inject_Z bound <= 1 / inject_Z span)%Q.
Proof.
  intros Hb Hsb. pose proof span_pos_Q as Hs. rewrite Zle_Qle in Hsb.
  assert (Hbq : (0 < inject_Z bound)%Q).
  { change 0%Q with (inject_Z 0). by rewrite <- Zlt_Qlt. }
  apply Qle_shift_div_l; [done|].
  assert (H : (1 / inject_Z bound * inject_Z span
               == inject_Z span / inject_Z bound)%Q) by (field; lra).
  rewrite H. apply Qle_shift_div_r; [done|]. lra.
Qed.

End quotients.

(** *** The float a step computes *)

Lemma finite_below (q : Q) (bound : Q) :
  (- bound <= q)%Q → (q <= bound)%Q → (bound < 2 ^ 1024)%Q → Float.finite q = true.
Proof.
  intros Hlow Hhigh Hbound. unfold Float.finite.
  destruct (Qle_bool (2 ^ 1024) (Qabs q)) eqn:Hcmp; [|done].
  apply Qle_bool_iff in Hcmp.
  assert (Habs : (Qabs q <= bound)%Q) by (apply Qabs_Qle_condition; lra).
  lra.
Qed.

Lemma round_2_1023 : Float.round (inject_Z (2 ^ 1023)) = (inject_Z (2 ^ 1023)).
Proof. by vm_compute. Qed.

Lemma int_truediv_returns (a span : Z) :
  (0 < span)%Z → (0 ≤ a ≤ 2 ^ 1023)%Z →
  Py.int_truediv a span = Return (Float.round (inject_Z a / inject_Z span)).
Proof.
  intros Hspan Ha. unfold Py.int_truediv.
  destruct (Z.eqb_spec span 0) as [?|_]; [lia|].
  destruct (quotient_bound span Hspan a (2 ^ 1023) Ha) as [Hlow Hhigh].
  apply round_mono in Hlow, Hhigh. rewrite round_0 in Hlow.
  rewrite round_2_1023 in Hhigh.
  rewrite (finite_below _ (inject_Z (2 ^ 1023))); [done|lra|lra|].
  by vm_compute.
Qed.

Lemma step_unfold (self : DecayLR.t) (epoch : Z) :
  (0 < DecayLR.epochs self - DecayLR.decay_epochs self)%Z →
  DecayLR.step self epoch
  = let q := Float.round
               (inject_Z (Z.max 0 (epoch + DecayLR.offset self - DecayLR.decay_epochs self))
                / inject_Z (DecayLR.epochs self - DecayLR.decay_epochs self)) in
    if Float.finite q then Return (Float.round (1 - q))
    else Raise (OverflowError "integer division result too large for a float").
Proof.
  intros Hspan. unfold DecayLR.step, Py.int_truediv.
  destruct (Z.eqb_spec (DecayLR.epochs self - DecayLR.decay_epochs self) 0) as [?|_];
    [lia|].
  cbv zeta. by destruct (Float.finite _).
Qed.

Section schedule.
Variables (span : Z).
Hypothesis span_pos : (0 < span)%Z.

Lemma factor_0 : DecayLR.factor span 0 = 1%Q.
Proof.
  unfold DecayLR.factor, Float.sub.
  rewrite (round_comp (inject_Z 0 / inject_Z span) 0) by by apply quotient_0.
  rewrite round_0. rewrite (round_comp (1 - 0) 1) by ring. apply round_1.
Qed.

Lemma factor_span : DecayLR.factor span span = 0%Q.
Proof.
  unfold DecayLR.factor, Float.sub.
  rewrite (round_comp (inject_Z span / inject_Z span) 1) by by apply quotient_1.
  rewrite round_1. rewrite (round_comp (1 - 1) 0) by ring. apply round_0.
Qed.

Lemma factor_mono (a b : Z) :
  (a ≤ b)%Z → (DecayLR.factor span b <= DecayLR.factor span a)%Q.
Proof.
  intros Hab. unfold DecayLR.factor, Float.sub. apply round_mono.
  pose proof (round_mono _ _ (quotient_le span span_pos a b Hab)). lra.
Qed.

(** Up to [2 ^ 24] for the span and the numerator, the two roundings move
    the factor by less than half the distance of two neighbours. *)
Lemma factor_error (a : Z) :
  (0 ≤ a ≤ 2 ^ 24 + 1)%Z →
  (DecayLR.factor span a - (1 - inject_Z a / inject_Z span) <= 2 ^ (-28))%Q
  ∧ ((1 - inject_Z a / inject_Z span) - DecayLR.factor span a <= 2 ^ (-28))%Q.
Proof.
  intros Ha. unfold DecayLR.factor, Float.sub.
  destruct (quotient_bound span span_pos a (2 ^ 24 + 1) Ha) as [Hlow Hhigh].
  set (x := (inject_Z a / inject_Z span)%Q) in *.
  assert (Hbound : (inject_Z (2 ^ 24 + 1) == 16777217)%Q) by reflexivity.
  destruct (round_error_below x 25) as [Hx1 Hx2]; [lia|lra|lra|].
  change (25 - 54)%Z with (-29)%Z in *.
  set (q := Float.round x) in *.
  destruct (round_error_below (1 - q) 25) as [Hp1 Hp2]; [lia|lra|lra|].
  change (25 - 54)%Z with (-29)%Z in *. lra.
Qed.

Lemma factor_decreasing (a : Z) :
  (span ≤ 2 ^ 24)%Z → (0 ≤ a ≤ 2 ^ 24)%Z →
  (DecayLR.factor span (a + 1) < DecayLR.factor span a)%Q.
Proof.
  intros Hspan Ha.
  destruct (factor_error a) as [_ Hlow]; [lia|].
  destruct (factor_error (a + 1)) as [Hhigh _]; [lia|].
  pose proof (quotient_succ span span_pos a) as Hsucc.
  pose proof (inverse_bound span span_pos (2 ^ 24) ltac:(lia) Hspan) as Hinv.
  assert (Hc : (1 / inject_Z (2 ^ 24) == 2 ^ (-24))%Q) by reflexivity.
  lra.
Qed.

End schedule.

(** C4, as amended.  For [decay_epochs < epochs] the construction succeeds,
    and [step] computes in binary64: the quotient of [max(0, epoch + offset
    - decay_epochs)] by [epochs - decay_epochs] is rounded, OverflowError is
    raised when it is too large for a float, and the difference from 1.0 is
    rounded again.  The call returns as long as the numerator is at most
    [2 ^ 1023].  The float is 1.0 as long as [epoch + offset <=
    decay_epochs], it is 0.0 at [epoch + offset = epochs], and it never
    grows with the epoch.  When [epochs - decay_epochs] is at most [2 ^ 24]:
    a float returned for a numerator of at most [2 ^ 24] is within [2 ^ -28]
    of the exact value of the expression, and is strictly above every float
    returned at a later epoch once the decay has begun; the float is 0.0 at
    [epoch + offset = epochs] only, and negative beyond. *)
Theorem DecayLR_step_schedule (epochs offset decay_epochs : Z) :
  (decay_epochs < epochs)%Z →
  ∃ self, DecayLR.__init__ epochs offset decay_epochs = Return self ∧
    let span := (epochs - decay_epochs)%Z in
    let past := λ epoch : Z, Z.max 0 (epoch + offset - decay_epochs) in
    let exact := λ epoch : Z, (1 - inject_Z (past epoch) / inject_Z span)%Q in
    (∀ epoch,
       DecayLR.step self epoch
       = let q := Float.round (inject_Z (past epoch) / inject_Z span) in
         if Float.finite q then Return (Float.round (1 - q))
         else Raise (OverflowError "integer division result too large for a float"))
    ∧ (∀ epoch, (past epoch ≤ 2 ^ 1023)%Z → returns (DecayLR.step self epoch))
    ∧ (∀ epoch, (epoch + offset ≤ decay_epochs)%Z →
                DecayLR.step self epoch = Return 1%Q)
    ∧ (∀ epoch, (epoch + offset = epochs)%Z → DecayLR.step self epoch = Return 0%Q)
    ∧ (∀ e1 e2 q1 q2, (e1 ≤ e2)%Z →
         DecayLR.step self e1 = Return q1 → DecayLR.step self e2 = Return q2 →
         (q2 <= q1)%Q)
    ∧ ((span ≤ 2 ^ 24)%Z →
       (∀ epoch q, (past epoch ≤ 2 ^ 24)%Z → DecayLR.step self epoch = Return q →
          (q - exact epoch <= 2 ^ (-28))%Q ∧ (exact epoch - q <= 2 ^ (-28))%Q)
       ∧ (∀ e1 e2 q1 q2,
            (decay_epochs ≤ e1 + offset)%Z → (past e1 ≤ 2 ^ 24)%Z → (e1 < e2)%Z →
            DecayLR.step self e1 = Return q1 → DecayLR.step self e2 = Return q2 →
            (q2 < q1)%Q)
       ∧ (∀ epoch q, DecayLR.step self epoch = Return q →
            (q == 0)%Q ↔ (epoch + offset = epochs)%Z)
       ∧ (∀ epoch q, (epochs < epoch + offset)%Z →
            DecayLR.step self epoch = Return q → (q < 0)%Q)).
Proof.
  intros Hlt.
  assert (Hspan : (0 < epochs - decay_epochs)%Z) by lia.
  exists {| DecayLR.epochs := epochs; DecayLR.offset := offset;
            DecayLR.decay_epochs := decay_epochs |}.
  split.
  { unfold DecayLR.__init__. simpl.
    destruct (Z.gtb_spec (epochs - decay_epochs) 0) as [_|Hle]; [done | lia]. }
  set (self := {| DecayLR.epochs := epochs; DecayLR.offset := offset;
                  DecayLR.decay_epochs := decay_epochs |}).
  intros span past exact.
  assert (Hstep : ∀ epoch,
            DecayLR.step self epoch
            = let q := Float.round (inject_Z (past epoch) / inject_Z span) in
              if Float.finite q then Return (Float.round (1 - q))
              else Raise (OverflowError "integer division result too large for a float")).
  { intros epoch. by rewrite step_unfold. }
  (* a call that returns gives the factor *)
  assert (Hfactor : ∀ epoch q, DecayLR.step self epoch = Return q →
                               q = DecayLR.factor span (past epoch)).
  { intros epoch q. rewrite Hstep. cbv zeta.
    destruct (Float.finite _); [by intros [= <-] | discriminate]. }
  assert (Hreturns : ∀ epoch, (past epoch ≤ 2 ^ 1023)%Z →
                              DecayLR.step self epoch = Return (DecayLR.factor span (past epoch))).
  { intros epoch Hpast. unfold DecayLR.step. simpl. fold (past epoch) span.
    rewrite int_truediv_returns; [done..|]. subst past. simpl. lia. }
  assert (Hone : ∀ epoch, (epoch + offset ≤ decay_epochs)%Z →
                          DecayLR.step self epoch = Return 1%Q).
  { intros epoch Hle. rewrite Hreturns.
    - replace (past epoch) with 0%Z by (subst past; simpl; lia).
      by rewrite factor_0.
    - subst past. simpl. lia. }
  assert (Hmono : ∀ e1 e2 q1 q2, (e1 ≤ e2)%Z →
            DecayLR.step self e1 = Return q1 → DecayLR.step self e2 = Return q2 →
            (q2 <= q1)%Q).
  { intros e1 e2 q1 q2 He H1 H2.
    rewrite (Hfactor _ _ H1), (Hfactor _ _ H2).
    apply factor_mono; [done|]. subst past. simpl. lia. }
  split; [exact Hstep|]. split; [|split; [exact Hone|split; [|split; [exact Hmono|]]]].
  - intros epoch Hpast. eexists. by apply Hreturns.
  - intros epoch Heq.
    assert (Hspan_small : (span ≤ 2 ^ 1023)%Z ∨ (2 ^ 1023 < span)%Z) by lia.
    rewrite Hstep. cbv zeta.
    replace (past epoch) with span by (subst past span; simpl; lia).
    rewrite (round_comp (inject_Z span / inject_Z span) 1) by by apply quotient_1.
    rewrite round_1. rewrite (round_comp (1 - 1) 0) by ring. by rewrite round_0.
  - intros Hsmall.
    assert (Hstrict : ∀ e1 e2 q1 q2,
              (decay_epochs ≤ e1 + offset)%Z → (past e1 ≤ 2 ^ 24)%Z → (e1 < e2)%Z →
              DecayLR.step self e1 = Return q1 → DecayLR.step self e2 = Return q2 →
              (q2 < q1)%Q).
    { intros e1 e2 q1 q2 Hfrom Hpast He H1 H2.
      assert (Hnext : DecayLR.step self (e1 + 1)
                      = Return (DecayLR.factor span (past e1 + 1))).
      { rewrite Hreturns.
        - do 2 f_equal. subst past. simpl. lia.
        - subst past. simpl in *. lia. }
      pose proof (Hmono (e1 + 1)%Z e2 _ _ ltac:(lia) Hnext H2) as Hle.
      rewrite (Hfactor _ _ H1).
      pose proof (factor_decreasing span Hspan (past e1) Hsmall) as Hdec.
      assert (0 ≤ past e1)%Z by (subst past; simpl; lia).
      specialize (Hdec ltac:(lia)). lra. }
    assert (Hzero : DecayLR.step self (epochs - offset) = Return 0%Q).
    { rewrite Hreturns.
      - replace (past (epochs - offset)%Z) with span by (subst past span; simpl; lia).
        by rewrite factor_span.
      - subst past span. simpl. lia. }
    assert (Hnegative : ∀ epoch q, (epochs < epoch + offset)%Z →
              DecayLR.step self epoch = Return q → (q < 0)%Q).
    { intros epoch q Hpast Hq.
      apply (Hstrict (epochs - offset)%Z epoch 0%Q q); [lia| |lia|done..].
      subst past span. simpl. lia. }
    split; [|split; [exact Hstrict|split; [|exact Hnegative]]].
    + intros epoch q Hpast Hq. rewrite (Hfactor _ _ Hq). subst exact. simpl.
      apply factor_error; [done|]. subst past. simpl in *. lia.
    + intros epoch q Hq. split.
      * intros Hq0.
        destruct (Z.lt_trichotomy (epoch + offset) epochs) as [Hbefore|[Heq|Hafter]];
          [|done|].
        -- exfalso.
           destruct (Z.le_gt_cases decay_epochs (epoch + offset)) as [Hfrom|Hearly].
           ++ pose proof (Hstrict epoch (epochs - offset)%Z q 0%Q Hfrom) as Hpos.
              assert (0 < q)%Q; [|lra]. apply Hpos; [|lia|done..].
              subst past span. simpl. lia.
           ++ rewrite Hone in Hq by lia. injection Hq as <-. lra.
        -- exfalso. pose proof (Hnegative epoch q Hafter Hq). lra.
      * intros Heq. replace epoch with (epochs - offset)%Z in Hq by lia.
        rewrite Hzero in Hq. by injection Hq as <-.
Qed.

Lemma DecayLR_step_schedule_witness :
  ∃ self, DecayLR.__init__ 200 0 100 = Return self
    ∧ DecayLR.step self 100 = Return 1%Q
    ∧ DecayLR.step self 200 = Return 0%Q
    ∧ (∀ q q', DecayLR.step self 150 = Return q → DecayLR.step self 151 = Return q' →
               (q' < q)%Q).
Proof.
  destruct (DecayLR_step_schedule 200 0 100)
    as (self & Hinit & _ & _ & Hone & Hzero & _ & Hsmall); [lia|].
  exists self. split; [exact Hinit|].
  split; [apply Hone; lia|]. split; [apply Hzero; lia|].
  destruct Hsmall as (_ & Hstrict & _); [by vm_compute|].
  intros q q'. apply Hstrict; [lia| by vm_compute |lia].
Defined.

(** C4 as stated fails on floats: with a span of [2 ^ 60] the first step of
    the decay leaves the factor at 1.0, and the factor is 0.0 one epoch
    before the end; and a call far beyond the last epoch raises instead of
    returning a negative factor. *)
Lemma DecayLR_step_not_strict :
  DecayLR.__init__ (2 ^ 60) 0 0
  = Return {| DecayLR.epochs := 2 ^ 60; DecayLR.offset := 0; DecayLR.decay_epochs := 0 |}
  ∧ DecayLR.step {| DecayLR.epochs := 2 ^ 60; DecayLR.offset := 0;
                    DecayLR.decay_epochs := 0 |} 0 = Return 1%Q
  ∧ DecayLR.step {| DecayLR.epochs := 2 ^ 60; DecayLR.offset := 0;
                    DecayLR.decay_epochs := 0 |} 1 = Return 1%Q
  ∧ DecayLR.step {| DecayLR.epochs := 2 ^ 60; DecayLR.offset := 0;
                    DecayLR.decay_epochs := 0 |} (2 ^ 60 - 1) = Return 0%Q
  ∧ DecayLR.step {| DecayLR.epochs := 1; DecayLR.offset := 0;
                    DecayLR.decay_epochs := 0 |} (2 ^ 1024)
    = Raise (OverflowError "integer division result too large for a float").
Proof. repeat split; by vm_compute. Qed.

(** C6.  The construction raises its assertion whenever [decay_epochs >=
    epochs], as for [DecayLR(10, 0, 10)], and returns the object otherwise. *)
Theorem DecayLR_init_guard (epochs offset decay_epochs : Z) :
  ((epochs ≤ decay_epochs)%Z →
     DecayLR.__init__ epochs offset decay_epochs
     = Raise (AssertionError "Decay must start before the training session ends!"))
  ∧ ((decay_epochs < epochs)%Z →
     DecayLR.__init__ epochs offset decay_epochs
     = Return {| DecayLR.epochs := epochs; DecayLR.offset := offset;
                 DecayLR.decay_epochs := decay_epochs |})
  ∧ DecayLR.__init__ 10 0 10
    = Raise (AssertionError "Decay must start before the training session ends!").
Proof.
  unfold DecayLR.__init__. simpl. repeat split.
  - intros Hge. destruct (Z.gtb_spec (epochs - decay_epochs) 0); [lia | done].
  - intros Hlt. destruct (Z.gtb_spec (epochs - decay_epochs) 0); [done | lia].
Qed.

Lemma DecayLR_init_guard_witness :
  returns (DecayLR.__init__ 200 0 100)
  ∧ ¬ returns (DecayLR.__init__ 100 0 200)
  ∧ ¬ returns (DecayLR.__init__ 10 0 10).
Proof.
  split; [|split].
  - eexists. apply (DecayLR_init_guard 200 0 100). lia.
  - intros [self Hret]. rewrite (proj1 (DecayLR_init_guard 100 0 200)) in Hret by lia.
    discriminate.
  - intros [self Hret]. rewrite (proj1 (DecayLR_init_guard 10 0 10)) in Hret by lia.
    discriminate.
Defined.

(** ** Properties of [save_checkpoint] *)








(** ** Properties of [AverageMeter] *)

(** C9, as amended.  [update(val, n)] sets [val], adds [val * n] to [sum]
    and [n] to [count] and leaves the name, the format and the summary type
    alone.  When the new count is not 0 it returns and [avg] is the new
    [sum] over the new [count]; when the new count is 0 it raises
    ZeroDivisionError and [avg] is what it was.  After a reset,
    [update(4, 1)] and then [update(2, 1)] both return and leave [avg] equal
    to 3, [sum] equal to 6 and [count] equal to 2. *)
Theorem AverageMeter_update_effect (self : AverageMeter.t) (val : Q) (n : Z) :
  let self' := (AverageMeter.update self val n).1 in
  let outcome := (AverageMeter.update self val n).2 in
  AverageMeter.val self' = val
  ∧ AverageMeter.sum self' = (AverageMeter.sum self + val * inject_Z n)%Q
  ∧ AverageMeter.count self' = (AverageMeter.count self + n)%Z
  ∧ AverageMeter.name self' = AverageMeter.name self
  ∧ AverageMeter.fmt self' = AverageMeter.fmt self
  ∧ AverageMeter.summary_type self' = AverageMeter.summary_type self
  ∧ ((AverageMeter.count self + n)%Z ≠ 0%Z →
       outcome = Return tt
       ∧ AverageMeter.avg self'
         = (AverageMeter.sum self' / inject_Z (AverageMeter.count self'))%Q)
  ∧ ((AverageMeter.count self + n)%Z = 0%Z →
       outcome = Raise ZeroDivisionError
       ∧ AverageMeter.avg self' = AverageMeter.avg self)
  ∧ (let m1 := AverageMeter.update (AverageMeter.reset self) 4 1 in
     let m2 := AverageMeter.update m1.1 2 1 in
     m1.2 = Return tt ∧ m2.2 = Return tt
     ∧ (AverageMeter.avg m2.1 == 3)%Q
     ∧ (AverageMeter.sum m2.1 == 6)%Q
     ∧ AverageMeter.count m2.1 = 2%Z).
Proof.
  intros self' outcome. subst self' outcome. unfold AverageMeter.update, Py.truediv.
  cbn [AverageMeter.count AverageMeter.sum AverageMeter.with_count AverageMeter.with_sum
       AverageMeter.with_val AverageMeter.val AverageMeter.avg AverageMeter.name
       AverageMeter.fmt AverageMeter.summary_type].
  destruct (Z.eq_dec (AverageMeter.count self + n)%Z 0%Z) as [Hz|Hnz].
  - rewrite Hz, Qeq_bool_inject_Z_zero. simpl.
    repeat split; try done.
  - rewrite Qeq_bool_inject_Z_nonzero by done. simpl.
    repeat split; try done.
Qed.

(** C9 as stated fails: on a new meter, [update(5, 0)] raises
    ZeroDivisionError after setting [val], and [avg] keeps its value. *)
Lemma AverageMeter_update_zero_count_raises :
  AverageMeter.update (AverageMeter.__init__ "loss" ":f" AVERAGE) 5 0
  = ({| AverageMeter.name := "loss"; AverageMeter.fmt := ":f";
        AverageMeter.summary_type := AVERAGE;
        AverageMeter.val := 5; AverageMeter.avg := 0;
        AverageMeter.sum := 0; AverageMeter.count := 0 |},
     Raise ZeroDivisionError).
Proof. reflexivity. Qed.

Lemma AverageMeter_update_effect_witness :
  (AverageMeter.update (AverageMeter.__init__ "loss" ":f" AVERAGE) (3 # 2) 4).2 = Return tt
  ∧ (AverageMeter.avg (AverageMeter.update (AverageMeter.__init__ "loss" ":f" AVERAGE)
                                            (3 # 2) 4).1 == 3 # 2)%Q
  ∧ (AverageMeter.update (AverageMeter.__init__ "loss" ":f" AVERAGE) 5 0).2
    = Raise ZeroDivisionError.
Proof.
  pose proof (AverageMeter_update_effect (AverageMeter.__init__ "loss" ":f" AVERAGE)
                (3 # 2) 4) as H1.
  pose proof (AverageMeter_update_effect (AverageMeter.__init__ "loss" ":f" AVERAGE)
                5 0) as H2.
  cbv zeta in H1, H2.
  destruct H1 as (_ & _ & _ & _ & _ & _ & Hret & _).
  destruct H2 as (_ & _ & _ & _ & _ & _ & _ & Hraise & _).
  destruct Hret as [Hr Havg]; [discriminate|].
  destruct Hraise as [Hz _]; [reflexivity|].
  split; [exact Hr|]. split; [|exact Hz].
  rewrite Havg. reflexivity.
Defined.

(** ** The loop of [ReplayBuffer.push_and_pop] *)

Lemma index_in_range {A : Type} (l : list A) (i : Z) :
  (0 ≤ i < Z.of_nat (length l))%Z → Py.index l i = Some (Z.to_nat i).
Proof.
  intros [Hlo Hhi]. unfold Py.index.
  destruct (Z.ltb_spec i 0) as [?|_]; [lia|].
  destruct (Z.leb_spec 0 i) as [_|?]; [|lia].
  destruct (Z.ltb_spec i (Z.of_nat (length l))) as [_|?]; [done | lia].
Qed.

Lemma getitem_in_range {A : Type} (l : list A) (i : Z) :
  (0 ≤ i < Z.of_nat (length l))%Z →
  ∃ x, Py.getitem l i = Return x ∧ l !! Z.to_nat i = Some x.
Proof.
  intros Hi. unfold Py.getitem. rewrite index_in_range by done.
  destruct (lookup_lt_is_Some_2 l (Z.to_nat i)) as [x Hx]; [lia|].
  exists x. by rewrite Hx.
Qed.

Lemma setitem_in_range {A : Type} (l : list A) (i : Z) (x : A) :
  (0 ≤ i < Z.of_nat (length l))%Z →
  Py.setitem l i x = Return (<[Z.to_nat i := x]> l).
Proof. intros Hi. unfold Py.setitem. by rewrite index_in_range. Qed.

Lemma elem_of_concat {A : Type} (x : A) (ls : list (list A)) :
  x ∈ concat ls ↔ ∃ l, l ∈ ls ∧ x ∈ l.
Proof.
  rewrite list_elem_of_In, in_concat. split.
  - intros (l & Hl & Hx). exists l. by rewrite !list_elem_of_In.
  - intros (l & Hl & Hx). exists l. by rewrite <- !list_elem_of_In.
Qed.

Section replay_buffer_facts.
Context {A G : Type} `{!random.Source G}.
Implicit Types (self : ReplayBuffer.t A) (g : G) (unit : torch.Tensor A).

Lemma randint_capacity self g :
  (0 < ReplayBuffer.max_size self)%Z →
  ∃ i g', random.randint 0 (ReplayBuffer.max_size self - 1) g = Return (i, g')
          ∧ (0 ≤ i < ReplayBuffer.max_size self)%Z.
Proof.
  intros Hpos. unfold random.randint.
  destruct (Z.leb_spec 0 (ReplayBuffer.max_size self - 1)) as [Hle|?]; [|lia].
  pose proof (random.draw_in_range 0 (ReplayBuffer.max_size self - 1) g Hle) as Hin.
  destruct (random.draw 0 (ReplayBuffer.max_size self - 1) g) as [i g'].
  exists i, g'. split; [done | simpl in Hin; lia].
Qed.

(** One turn of the loop on a well-formed buffer: the sample is appended and
    emitted, or passed through, or swapped with a stored unit. *)
Lemma push_and_pop_loop_step (element : list nat * A) (rest : list (list nat * A))
  self g (to_return : list (torch.Tensor A)) :
  ReplayBuffer.ok self →
  ∃ self1 g1 unit,
    ReplayBuffer.push_and_pop_loop (element :: rest) self g to_return
    = ReplayBuffer.push_and_pop_loop rest self1 g1 (to_return ++ [unit])
    ∧ ReplayBuffer.ok self1
    ∧ ReplayBuffer.max_size self1 = ReplayBuffer.max_size self
    ∧ (((Z.of_nat (length (ReplayBuffer.data self)) < ReplayBuffer.max_size self)%Z
        ∧ ReplayBuffer.data self1 = ReplayBuffer.data self ++ [torch.unsqueeze0 element]
        ∧ unit = torch.unsqueeze0 element ∧ g1 = g)
       ∨ (Z.of_nat (length (ReplayBuffer.data self)) = ReplayBuffer.max_size self
          ∧ ReplayBuffer.data self1 = ReplayBuffer.data self
          ∧ unit = torch.unsqueeze0 element)
       ∨ (Z.of_nat (length (ReplayBuffer.data self)) = ReplayBuffer.max_size self
          ∧ ∃ i, ReplayBuffer.data self !! i = Some unit
                 ∧ ReplayBuffer.data self1
                   = <[i := torch.unsqueeze0 element]> (ReplayBuffer.data self))).
Proof.
  intros (Hpos & Hcap & Hunits). cbn [ReplayBuffer.push_and_pop_loop]. unfold torch.clone.
  destruct (Z.ltb_spec (Z.of_nat (length (ReplayBuffer.data self)))
                       (ReplayBuffer.max_size self)) as [Hroom|Hfull].
  - eexists _, g, (torch.unsqueeze0 element).
    split; [reflexivity|]. split; [|split; [done|by left]].
    split; [done|]. simpl. rewrite length_app. simpl.
    split; [lia|]. apply Forall_app. split; [done|]. by repeat constructor.
  - destruct (random.uniform 0 1 g) as [u g1].
    destruct (negb (Qle_bool u (1 # 2))).
    + destruct (randint_capacity self g1 Hpos) as (i & g2 & -> & Hi).
      assert (Hi' : (0 ≤ i < Z.of_nat (length (ReplayBuffer.data self)))%Z) by lia.
      destruct (getitem_in_range (ReplayBuffer.data self) i Hi') as (stored & -> & Hstored).
      rewrite setitem_in_range by done.
      eexists _, g2, stored. split; [reflexivity|]. split; [|split; [done|]].
      * split; [done|]. simpl. rewrite length_insert.
        split; [done|]. apply Forall_insert; done.
      * right; right. split; [lia|]. by exists (Z.to_nat i).
    + eexists self, g1, (torch.unsqueeze0 element). split; [reflexivity|]. split; [done|].
      split; [done|]. right; left. split; [lia | done].
Qed.

(** The loop never raises on a well-formed buffer.  It emits one unit per
    sample, in order: the unit of the sample, or a unit that was stored when
    the turn of the sample came, that is a unit of the buffer or the unit of
    a sample before it.  The buffer it leaves is well formed, has the same
    capacity, and holds units it held or units of the samples. *)
Lemma push_and_pop_loop_ok (elements : list (list nat * A)) self g
  (to_return : list (torch.Tensor A)) :
  ReplayBuffer.ok self →
  ∃ self' g' emitted,
    ReplayBuffer.push_and_pop_loop elements self g to_return
      = (self', g', Return (to_return ++ emitted))
    ∧ ReplayBuffer.ok self'
    ∧ ReplayBuffer.max_size self' = ReplayBuffer.max_size self
    ∧ length emitted = length elements
    ∧ (∀ i element, elements !! i = Some element →
         ∃ unit, emitted !! i = Some unit
                 ∧ (unit = torch.unsqueeze0 element
                    ∨ unit ∈ ReplayBuffer.data self
                    ∨ ∃ j earlier, j < i ∧ elements !! j = Some earlier
                                   ∧ unit = torch.unsqueeze0 earlier))
    ∧ (∀ unit, unit ∈ ReplayBuffer.data self' →
               unit ∈ ReplayBuffer.data self
               ∨ ∃ element, element ∈ elements ∧ unit = torch.unsqueeze0 element).
Proof.
  revert self g to_return.
  induction elements as [|x rest IH]; intros self g to_return Hok.
  { exists self, g, []. simpl. rewrite app_nil_r.
    split; [done|]. split; [done|]. split; [done|]. split; [done|].
    split; [intros i element Hi; by rewrite lookup_nil in Hi|].
    intros unit Hunit. by left. }
  destruct (push_and_pop_loop_step x rest self g to_return Hok)
    as (self1 & g1 & unit & -> & Hok1 & Hmax & Hcase).
  destruct (IH self1 g1 (to_return ++ [unit]) Hok1)
    as (self' & g' & emitted & -> & Hok' & Hmax' & Hlen & Hem & Hdata).
  (* the unit emitted for [x], and where the units of [self1] come from *)
  assert (Hunit : unit = torch.unsqueeze0 x ∨ unit ∈ ReplayBuffer.data self).
  { destruct Hcase as [(_ & _ & -> & _)|[(_ & _ & ->)|(_ & i & Hi & _)]];
      [by left..|]. right. by eapply list_elem_of_lookup_2. }
  assert (Hfrom : ∀ u, u ∈ ReplayBuffer.data self1 →
                       u ∈ ReplayBuffer.data self ∨ u = torch.unsqueeze0 x).
  { intros u Hu.
    destruct Hcase as [(_ & Hd & _)|[(_ & Hd & _)|(_ & i & Hi & Hd)]]; rewrite Hd in Hu.
    - apply elem_of_app in Hu as [?|Hu]; [by left|].
      apply list_elem_of_singleton in Hu. by right.
    - by left.
    - apply list_elem_of_lookup in Hu as (j & Hj).
      destruct (decide (j = i)) as [->|Hne].
      + rewrite list_lookup_insert_eq in Hj by by eapply lookup_lt_Some.
        injection Hj as <-. by right.
      + rewrite list_lookup_insert_ne in Hj by done.
        left. by eapply list_elem_of_lookup_2. }
  exists self', g', (unit :: emitted).
  split; [by rewrite <- app_assoc|]. split; [done|]. split; [congruence|].
  split; [simpl; lia|]. split.
  - intros [|i] element Hi; simpl in Hi.
    + injection Hi as <-. exists unit. split; [done|].
      destruct Hunit as [?|?]; [by left | by right; left].
    + destruct (Hem i element Hi) as (u & Hu & Hcases).
      exists u. split; [done|].
      destruct Hcases as [?|[Hin|(j & earlier & Hj & Hearlier & ->)]].
      * by left.
      * destruct (Hfrom u Hin) as [?| ->]; [by right; left|].
        right; right. exists 0, x. split; [lia | done].
      * right; right. exists (S j), earlier. split; [lia | done].
  - intros u Hu. destruct (Hdata u Hu) as [Hin|(element & Hin & ->)].
    + destruct (Hfrom u Hin) as [?| ->]; [by left|].
      right. exists x. split; [apply list_elem_of_here | done].
    + right. exists element. split; [by apply list_elem_of_further | done].
Qed.

End replay_buffer_facts.

(** ** [torch.cat] on units *)

Section cat_facts.
Context {A : Type} {version : torch.Version}.
Implicit Types (units : list (torch.Tensor A)).

Lemma cat_same_size units (size : list nat) :
  units ≠ [] →
  Forall (λ unit, torch.slice_size unit = size) units →
  torch.cat units
  = Return {| torch.slice_size := size;
              torch.slices := concat (torch.slices <$> units) |}.
Proof.
  intros Hne Hall. destruct units as [|unit units]; [done|].
  unfold torch.cat.
  assert (Hhead : torch.slice_size unit = size) by by inversion Hall.
  rewrite Hhead.
  assert (Hcheck : forallb (λ t', bool_decide (torch.slice_size t' = size))
                           (unit :: units) = true).
  { apply forallb_forall. intros u Hu. apply bool_decide_eq_true.
    rewrite Forall_forall in Hall. apply Hall. by apply list_elem_of_In. }
  by rewrite Hcheck.
Qed.

Lemma cat_raises units (e : exn) :
  torch.cat units = Raise e →
  units = [] ∧ e = torch.cat_empty ∨ units ≠ [] ∧ e = torch.size_mismatch.
Proof.
  unfold torch.cat. destruct units as [|unit units].
  - intros [= <-]. by left.
  - destruct (forallb _ _); [discriminate|]. intros [= <-]. by right.
Qed.

Lemma length_slices_units units :
  Forall (λ unit, length (torch.slices unit) = 1) units →
  length (concat (torch.slices <$> units)) = length units.
Proof.
  induction 1 as [|unit units Hunit _ IH]; [done|].
  rewrite fmap_cons. cbn [concat length]. rewrite length_app, Hunit, IH. done.
Qed.

Lemma lookup_slices_units units (i : nat) (unit : torch.Tensor A) :
  Forall (λ unit, length (torch.slices unit) = 1) units →
  units !! i = Some unit →
  ∃ y, torch.slices unit = [y] ∧ concat (torch.slices <$> units) !! i = Some y.
Proof.
  intros Hall. revert i. induction Hall as [|u units Hu _ IH]; intros i Hi.
  - by rewrite lookup_nil in Hi.
  - destruct (torch.slices u) as [|y [|? ?]] eqn:Hslices; try done.
    destruct i as [|i]; simpl in Hi.
    + injection Hi as <-. exists y. split; [done|].
      rewrite fmap_cons. cbn [concat]. by rewrite Hslices.
    + destruct (IH i Hi) as (y' & Hy' & Hlook). exists y'. split; [done|].
      rewrite fmap_cons. cbn [concat]. rewrite Hslices. done.
Qed.

End cat_facts.

Lemma elem_of_samples {A : Type} (self : ReplayBuffer.t A) (unit : torch.Tensor A) (y : A) :
  unit ∈ ReplayBuffer.data self → torch.slices unit = [y] → y ∈ ReplayBuffer.samples self.
Proof.
  intros Hunit Hy. unfold ReplayBuffer.samples. apply elem_of_concat.
  exists [y]. split; [|apply list_elem_of_here].
  apply list_elem_of_fmap. exists unit. by rewrite Hy.
Qed.

Lemma lookup_elements {A : Type} (batch : torch.Tensor A) (i : nat)
  (element : list nat * A) :
  torch.elements batch !! i = Some element ↔
  ∃ x, torch.slices batch !! i = Some x ∧ element = (torch.slice_size batch, x).
Proof.
  unfold torch.elements. rewrite list_lookup_fmap. split.
  - destruct (torch.slices batch !! i) as [x|]; [|done].
    intros [= <-]. by exists x.
  - intros (x & -> & ->). done.
Qed.

Section replay_buffer_calls.
Context {A G : Type} `{!random.Source G} {version : torch.Version}.
Implicit Types (self : ReplayBuffer.t A) (g : G).

Lemma init_ok (max_size : Z) self :
  ReplayBuffer.__init__ max_size = Return self → ReplayBuffer.ok self.
Proof.
  unfold ReplayBuffer.__init__.
  destruct (Z.gtb_spec max_size 0) as [Hpos|_]; [|discriminate].
  intros [= <-]. unfold ReplayBuffer.ok. simpl. split; [lia|]. split; [lia | constructor].
Qed.

(** One call on a well-formed buffer. *)
Lemma push_and_pop_ok self g (batch : torch.Tensor A) :
  ReplayBuffer.ok self →
  ∃ self' g' outcome,
    ReplayBuffer.push_and_pop self g batch = (self', g', outcome)
    ∧ ReplayBuffer.ok self'
    ∧ ReplayBuffer.max_size self' = ReplayBuffer.max_size self
    ∧ (torch.slices batch ≠ [] →
       Forall (λ unit, torch.slice_size unit = torch.slice_size batch)
              (ReplayBuffer.data self) →
       Forall (λ unit, torch.slice_size unit = torch.slice_size batch)
              (ReplayBuffer.data self')
       ∧ ∃ out, outcome = Return out
           ∧ torch.slice_size out = torch.slice_size batch
           ∧ length (torch.slices out) = length (torch.slices batch)
           ∧ ∀ i x, torch.slices batch !! i = Some x →
               ∃ y, torch.slices out !! i = Some y
                    ∧ (y = x ∨ y ∈ ReplayBuffer.samples self
                       ∨ ∃ j, j < i ∧ torch.slices batch !! j = Some y))
    ∧ (torch.slices batch ≠ [] → ∀ e, outcome = Raise e → e = torch.size_mismatch)
    ∧ (torch.slices batch = [] →
       outcome = Raise torch.cat_empty ∧ self' = self ∧ g' = g).
Proof.
  intros Hok. unfold ReplayBuffer.push_and_pop.
  destruct (push_and_pop_loop_ok (torch.elements batch) self g [] Hok)
    as (self' & g' & emitted & Hrun & Hok' & Hmax & Hlen & Hem & Hdata).
  rewrite Hrun. simpl. exists self', g', (torch.cat emitted).
  split; [done|]. split; [done|]. split; [done|].
  assert (Hlen' : length emitted = length (torch.slices batch)).
  { rewrite Hlen. unfold torch.elements. by rewrite length_fmap. }
  split; [|split].
  - intros Hne Hsizes.
    (* every unit emitted has one slice, of the size of the batch *)
    assert (Hunits : Forall (λ unit, length (torch.slices unit) = 1
                                     ∧ torch.slice_size unit = torch.slice_size batch)
                            emitted).
    { apply Forall_lookup. intros i unit Hunit.
      destruct (lookup_lt_is_Some_2 (torch.elements batch) i) as [element Helement].
      { rewrite <- Hlen. by eapply lookup_lt_Some. }
      destruct (Hem i element Helement) as (unit' & Hunit' & Hcases).
      rewrite Hunit in Hunit'. injection Hunit' as <-.
      apply lookup_elements in Helement as (x & _ & ->).
      destruct Hcases as [->|[Hin|(j & earlier & _ & Hearlier & ->)]].
      - done.
      - destruct Hok as (_ & _ & Hone).
        rewrite Forall_forall in Hone, Hsizes. split; [by apply Hone | by apply Hsizes].
      - apply lookup_elements in Hearlier as (x' & _ & ->). done. }
    split.
    { apply Forall_forall. intros unit Hunit.
      destruct (Hdata unit Hunit) as [Hin|(element & Hin & ->)].
      - rewrite Forall_forall in Hsizes. by apply Hsizes.
      - apply list_elem_of_lookup in Hin as (i & Hi).
        apply lookup_elements in Hi as (x & _ & ->). done. }
    rewrite (cat_same_size emitted (torch.slice_size batch)).
    + eexists. split; [reflexivity|]. simpl. split; [done|].
      assert (Hone : Forall (λ unit, length (torch.slices unit) = 1) emitted).
      { eapply Forall_impl; [exact Hunits|]. by intros unit [? _]. }
      split; [by rewrite length_slices_units|].
      intros i x Hx.
      destruct (Hem i (torch.slice_size batch, x)) as (unit & Hunit & Hcases).
      { apply lookup_elements. by exists x. }
      destruct (lookup_slices_units emitted i unit Hone Hunit) as (y & Hy & Hlook).
      exists y. split; [exact Hlook|].
      destruct Hcases as [->|[Hin|(j & earlier & Hj & Hearlier & ->)]].
      * left. simpl in Hy. by injection Hy as <-.
      * right; left. by eapply elem_of_samples.
      * right; right. exists j. split; [done|].
        apply lookup_elements in Hearlier as (x' & Hx' & ->).
        simpl in Hy. by injection Hy as <-.
    + intros ->. destruct (torch.slices batch); [done | discriminate].
    + eapply Forall_impl; [exact Hunits|]. by intros unit [_ ?].
  - intros Hne e Hraise. apply cat_raises in Hraise as [[-> _]|[_ ->]]; [|done].
    destruct (torch.slices batch); [done | discriminate].
  - intros Hempty.
    assert (Helements : torch.elements batch = []).
    { unfold torch.elements. by rewrite Hempty. }
    rewrite Helements in Hrun. simpl in Hrun. injection Hrun as <- <- <-. done.
Qed.

Lemma reachable_ok self : ReplayBuffer.reachable (G := G) self → ReplayBuffer.ok self.
Proof.
  induction 1 as [max_size self Hinit|self g batch _ IH].
  - by eapply init_ok.
  - destruct (push_and_pop_ok self g batch IH) as (self' & g' & outcome & -> & Hok' & _).
    done.
Qed.

End replay_buffer_calls.

(** ** Properties of [ReplayBuffer] *)

(** C7.  The construction raises its assertion for every [max_size <= 0], as
    for [ReplayBuffer(0)], and returns an empty buffer of that capacity for
    every [max_size > 0]. *)
Theorem ReplayBuffer_init_guard (A : Type) (max_size : Z) :
  ((max_size ≤ 0)%Z →
     ReplayBuffer.__init__ (A := A) max_size
     = Raise (AssertionError "Empty buffer or trying to create a black hole. Be careful."))
  ∧ ((0 < max_size)%Z →
     ReplayBuffer.__init__ (A := A) max_size
     = Return {| ReplayBuffer.max_size := max_size; ReplayBuffer.data := [] |})
  ∧ ReplayBuffer.__init__ (A := A) 0
    = Raise (AssertionError "Empty buffer or trying to create a black hole. Be careful.").
Proof.
  unfold ReplayBuffer.__init__. repeat split.
  - intros Hle. destruct (Z.gtb_spec max_size 0); [lia | done].
  - intros Hgt. destruct (Z.gtb_spec max_size 0); [done | lia].
Qed.

Lemma ReplayBuffer_init_guard_witness :
  returns (ReplayBuffer.__init__ (A := nat) 50)
  ∧ ¬ returns (ReplayBuffer.__init__ (A := nat) 0)
  ∧ ¬ returns (ReplayBuffer.__init__ (A := nat) (-3)).
Proof.
  split; [|split].
  - eexists. apply (ReplayBuffer_init_guard nat 50). lia.
  - intros [self Hret]. rewrite (proj1 (ReplayBuffer_init_guard nat 0)) in Hret by lia.
    discriminate.
  - intros [self Hret]. rewrite (proj1 (ReplayBuffer_init_guard nat (-3))) in Hret by lia.
    discriminate.
Defined.

(** C5, as amended.  On a buffer made by the constructor and used through
    [push_and_pop] only, the capacity is positive and the stored units, one
    sample each, are at most [max_size], before the call and after it,
    whatever the batch.  For a batch that is not empty and whose samples
    have the size of the stored ones, the call returns a batch of that size
    with as many samples as it was given, in order: the sample at a place is
    the sample given at that place, or a sample that the buffer held, or one
    given at an earlier place; the stored samples still have that size.  A
    call on a batch that is not empty fails only with the RuntimeError of
    [torch.cat] on tensors of different sizes.  For an empty batch the call
    raises the exception of [torch.cat] on an empty list and the buffer is
    as before. *)
Theorem push_and_pop_count_and_capacity {A G : Type} `{!random.Source G}
  {version : torch.Version} (self : ReplayBuffer.t A) (g : G) (batch : torch.Tensor A) :
  ReplayBuffer.reachable (G := G) self →
  let after := (ReplayBuffer.push_and_pop self g batch).1.1 in
  let outcome := (ReplayBuffer.push_and_pop self g batch).2 in
  (0 < ReplayBuffer.max_size self)%Z
  ∧ (Z.of_nat (length (ReplayBuffer.data self)) ≤ ReplayBuffer.max_size self)%Z
  ∧ ReplayBuffer.reachable (G := G) after
  ∧ ReplayBuffer.max_size after = ReplayBuffer.max_size self
  ∧ (Z.of_nat (length (ReplayBuffer.data after)) ≤ ReplayBuffer.max_size after)%Z
  ∧ length (ReplayBuffer.samples after) = length (ReplayBuffer.data after)
  ∧ (torch.slices batch ≠ [] →
     Forall (λ unit, torch.slice_size unit = torch.slice_size batch)
            (ReplayBuffer.data self) →
     Forall (λ unit, torch.slice_size unit = torch.slice_size batch)
            (ReplayBuffer.data after)
     ∧ ∃ out, outcome = Return out
         ∧ torch.slice_size out = torch.slice_size batch
         ∧ length (torch.slices out) = length (torch.slices batch)
         ∧ ∀ i x, torch.slices batch !! i = Some x →
             ∃ y, torch.slices out !! i = Some y
                  ∧ (y = x ∨ y ∈ ReplayBuffer.samples self
                     ∨ ∃ j, j < i ∧ torch.slices batch !! j = Some y))
  ∧ (torch.slices batch ≠ [] → ∀ e, outcome = Raise e → e = torch.size_mismatch)
  ∧ (torch.slices batch = [] → outcome = Raise torch.cat_empty ∧ after = self).
Proof.
  intros Hreach after outcome.
  assert (Hafter : ReplayBuffer.reachable (G := G) after) by by constructor.
  subst after outcome.
  pose proof (reachable_ok self Hreach) as Hok.
  destruct (push_and_pop_ok self g batch Hok)
    as (self' & g' & outcome & Hcall & Hok' & Hmax & Hsome & Hfail & Hnone).
  rewrite Hcall in *. simpl in *.
  destruct Hok as (Hpos & Hcap & _). destruct Hok' as (_ & Hcap' & Hunits').
  split; [done|]. split; [done|]. split; [done|]. split; [done|].
  split; [lia|]. split; [by apply length_slices_units|]. split; [done|].
  split; [done|]. intros Hempty. by destruct (Hnone Hempty) as (? & ? & _).
Qed.

(** C5 as stated fails: a buffer of capacity 2 given an empty batch raises
    instead of returning an empty batch, in a version of torch as in the
    other; and a full buffer whose sample has another size than those of the
    batch raises when the stored sample is emitted. *)
Lemma push_and_pop_empty_batch_raises :
  ReplayBuffer.push_and_pop (version := Fixtures.torch_runtime_error)
    {| ReplayBuffer.max_size := 2; ReplayBuffer.data := [] |} 42%Z (Fixtures.batch [3] [])
  = ({| ReplayBuffer.max_size := 2; ReplayBuffer.data := [] |}, 42%Z,
     Raise (RuntimeError "torch.cat(): expected a non-empty list of Tensors"))
  ∧ ReplayBuffer.push_and_pop (version := Fixtures.torch_value_error)
      {| ReplayBuffer.max_size := 2; ReplayBuffer.data := [] |} 42%Z (Fixtures.batch [3] [])
    = ({| ReplayBuffer.max_size := 2; ReplayBuffer.data := [] |}, 42%Z, Raise ValueError)
  ∧ (ReplayBuffer.push_and_pop (version := Fixtures.torch_runtime_error)
       (ReplayBuffer.push_and_pop (version := Fixtures.torch_runtime_error)
          {| ReplayBuffer.max_size := 1; ReplayBuffer.data := [] |} 0%Z
          (Fixtures.batch [2] [7])).1.1
       7%Z (Fixtures.batch [3] [8; 9])).2
    = Raise torch.size_mismatch.
Proof. split; [reflexivity|]. split; [reflexivity|]. by vm_compute. Qed.

Lemma push_and_pop_count_and_capacity_witness :
  ∃ out : torch.Tensor nat,
    (ReplayBuffer.push_and_pop (version := Fixtures.torch_runtime_error)
       {| ReplayBuffer.max_size := 2; ReplayBuffer.data := [] |} 42%Z
       Fixtures.five_samples).2
    = Return out
    ∧ length (torch.slices out) = 5
    ∧ (Z.of_nat (length (ReplayBuffer.data
         (ReplayBuffer.push_and_pop (version := Fixtures.torch_runtime_error)
            {| ReplayBuffer.max_size := 2; ReplayBuffer.data := [] |} 42%Z
            Fixtures.five_samples).1.1)) ≤ 2)%Z.
Proof.
  destruct (push_and_pop_count_and_capacity (G := Z) (version := Fixtures.torch_runtime_error)
              {| ReplayBuffer.max_size := 2; ReplayBuffer.data := [] |} 42%Z
              Fixtures.five_samples)
    as (_ & _ & _ & Hmax & Hcap & _ & Hout & _).
  - by apply (ReplayBuffer.reachable_init 2).
  - destruct Hout as (_ & out & Hret & _ & Hlen & _); [discriminate|constructor|].
    exists out. split; [exact Hret|]. split; [exact Hlen|].
    rewrite Hmax in Hcap. exact Hcap.
Defined.

(** ** Further properties *)

Lemma keys_set_new {V : Type} (d : Dict.t V) (k : string) (v : V) :
  k ∉ Dict.keys d → Dict.keys (Dict.set k v d) = Dict.keys d ++ [k].
Proof.
  intros Hk. rewrite set_new by done. unfold Dict.keys. by rewrite fmap_app.
Qed.

Lemma wf_set {V : Type} (d : Dict.t V) (k : string) (v : V) :
  Dict.wf d → Dict.wf (Dict.set k v d).
Proof.
  unfold Dict.wf. intros Hwf.
  destruct (decide (k ∈ Dict.keys d)) as [Hin|Hnin].
  - by rewrite keys_set_old.
  - rewrite keys_set_new by done. apply NoDup_app. split; [done|].
    split; [|apply NoDup_singleton].
    intros x Hx Hx'. apply list_elem_of_singleton in Hx'. by subst.
Qed.

Lemma rename_loop_uncompiled_returns {T : Type} (items d : Dict.t T) :
  Dict.wf d → ∃ d', rename_loop false items d = Return d' ∧ Dict.wf d'.
Proof.
  revert d. induction items as [|kv items IH]; intros d Hwf; simpl; [by exists d|].
  rewrite rename_step_eq. simpl. apply IH. by apply wf_set.
Qed.

(** Out of compile mode the call returns on every source, whatever its keys:
    entries that do not fit are dropped, nothing is reported. *)
Theorem load_state_dict_uncompiled_returns {T : Type} `{!nn.Tensor T}
  (model : nn.Module_ T) (state_dict : Dict.t T) :
  Dict.wf (nn.parameters model) →
  ∃ model', load_state_dict model false state_dict = Return model'
            ∧ Dict.keys (nn.parameters model') = Dict.keys (nn.parameters model).
Proof.
  intros Hm. unfold load_state_dict.
  destruct (rename_loop_uncompiled_returns state_dict []) as (renamed & -> & Hwf).
  { unfold Dict.wf. simpl. apply NoDup_nil_2. }
  simpl. rewrite load_merged by done.
  eexists. split; [reflexivity|]. simpl. apply keys_merged.
Qed.

Lemma load_state_dict_uncompiled_returns_witness :
  returns (load_state_dict Fixtures.target_a false Fixtures.source_mixed).
Proof.
  destruct (load_state_dict_uncompiled_returns Fixtures.target_a Fixtures.source_mixed)
    as (model' & Hret & _).
  - unfold Dict.wf. simpl. apply NoDup_singleton.
  - by exists model'.
Defined.

(** In compile mode the call returns exactly when every key of the source
    has the marker as its first token. *)
Theorem load_state_dict_compiled_returns_iff {T : Type} `{!nn.Tensor T}
  (model : nn.Module_ T) (state_dict : Dict.t T) :
  Dict.wf (nn.parameters model) →
  Dict.wf state_dict →
  returns (load_state_dict model true state_dict)
  ↔ Forall (λ kv, prefix_token kv.1 = compile_state) state_dict.
Proof.
  intros Hm Hs. split.
  - intros [model' Hret]. unfold load_state_dict in Hret.
    apply bind_returns_inv in Hret as (renamed & Hloop & _).
    by eapply rename_loop_compiled_returns.
  - intros Hall. unfold load_state_dict.
    rewrite rename_loop_keep, update_nil; [|done|].
    + simpl. rewrite load_merged by done. by eexists.
    + eapply Forall_impl; [exact Hall|]. intros kv Hkv. simpl in Hkv.
      rewrite Hkv. apply String.eqb_refl.
Qed.

Lemma load_state_dict_compiled_returns_iff_witness :
  returns (load_state_dict Fixtures.compiled_a true Fixtures.source_compiled)
  ∧ ¬ returns (load_state_dict Fixtures.compiled_a true Fixtures.source_mixed).
Proof.
  assert (Hm : Dict.wf (nn.parameters Fixtures.compiled_a)).
  { unfold Dict.wf. simpl. apply NoDup_singleton. }
  assert (Hwf : ∀ a b : Fixtures.tensor, Dict.wf [("_orig_mod.a", a); ("_orig_mod.b", b)]).
  { intros a b. unfold Dict.wf. simpl. apply NoDup_cons. split; [|apply NoDup_singleton].
    rewrite list_elem_of_singleton. discriminate. }
  assert (Hwf' : ∀ a b : Fixtures.tensor, Dict.wf [("_orig_mod.a", a); ("b", b)]).
  { intros a b. unfold Dict.wf. simpl. apply NoDup_cons. split; [|apply NoDup_singleton].
    rewrite list_elem_of_singleton. discriminate. }
  split.
  - apply (load_state_dict_compiled_returns_iff _ _ Hm (Hwf _ _)).
    repeat constructor.
  - intros Hret.
    apply (load_state_dict_compiled_returns_iff _ _ Hm (Hwf' _ _)) in Hret.
    apply Forall_cons in Hret as [_ Hret]. apply Forall_cons in Hret as [Hb _].
    discriminate.
Defined.

(** Out of compile mode, a key whose first token is the marker loses exactly
    the marker and its dot: ["_orig_mod." ++ rest] becomes [rest], and the
    bare key ["_orig_mod"] becomes the empty string. *)
Theorem rename_key_strips_marker (k : string) :
  prefix_token k = compile_state →
  (k = compile_state ∧ rename_key false (prefix_token k) k = EmptyString)
  ∨ (k = compile_state +:+ "." +:+ rename_key false (prefix_token k) k).
Proof.
  intros Hk.
  assert (Hname : rename_key false (prefix_token k) k = Py.slice_from 10 k).
  { unfold rename_key. by rewrite Hk. }
  rewrite Hname.
  destruct (prefix_token_inv k compile_state Hk) as [->|(rest & ->)].
  - left. split; reflexivity.
  - right.
    assert (Hrest : Py.slice_from 10 (compile_state +:+ "." +:+ rest) = rest)
      by exact (slice_from_app "_orig_mod." rest).
    by rewrite Hrest.
Qed.

Lemma rename_key_strips_marker_witness :
  "_orig_mod.net.0.weight"
  = compile_state +:+ "." +:+
      rename_key false (prefix_token "_orig_mod.net.0.weight") "_orig_mod.net.0.weight".
Proof.
  destruct (rename_key_strips_marker "_orig_mod.net.0.weight") as [[Hk _]|Hk];
    [reflexivity | discriminate | exact Hk].
Defined.

Lemma push_and_pop_loop_room {A G : Type} `{!random.Source G}
  (elements : list (list nat * A)) (self : ReplayBuffer.t A) (g : G)
  (to_return : list (torch.Tensor A)) :
  (Z.of_nat (length (ReplayBuffer.data self) + length elements)
   ≤ ReplayBuffer.max_size self)%Z →
  ReplayBuffer.push_and_pop_loop elements self g to_return
  = (ReplayBuffer.with_data self
       (ReplayBuffer.data self ++ map torch.unsqueeze0 elements),
     g, Return (to_return ++ map torch.unsqueeze0 elements)).
Proof.
  revert self to_return. induction elements as [|x rest IH]; intros self to_return Hroom.
  - simpl. rewrite !app_nil_r. by destruct self.
  - cbn [ReplayBuffer.push_and_pop_loop map length] in *.
    destruct (Z.ltb_spec (Z.of_nat (length (ReplayBuffer.data self)))
                         (ReplayBuffer.max_size self)) as [_|?]; [|lia].
    rewrite IH.
    + simpl. unfold ReplayBuffer.with_data. simpl. by rewrite <- !app_assoc.
    + simpl. rewrite length_app. simpl. lia.
Qed.

Lemma slices_unsqueeze0 {A : Type} (batch : torch.Tensor A) :
  concat (torch.slices <$> map torch.unsqueeze0 (torch.elements batch))
  = torch.slices batch.
Proof.
  unfold torch.elements. induction (torch.slices batch) as [|x l IH]; [done|].
  csimpl. f_equal. exact IH.
Qed.

Lemma cat_unsqueeze0 {A : Type} {version : torch.Version} (batch : torch.Tensor A) :
  torch.slices batch ≠ [] →
  torch.cat (map torch.unsqueeze0 (torch.elements batch)) = Return batch.
Proof.
  intros Hne. rewrite (cat_same_size _ (torch.slice_size batch)).
  - rewrite slices_unsqueeze0. by destruct batch.
  - unfold torch.elements. by destruct (torch.slices batch).
  - apply Forall_forall. intros unit Hunit.
    apply list_elem_of_In, in_map_iff in Hunit as (element & <- & Hin).
    apply list_elem_of_In, list_elem_of_lookup in Hin as (i & Hi).
    by apply lookup_elements in Hi as (x & _ & ->).
Qed.

(** While the buffer has room for the whole batch, every sample is stored
    and the batch comes back as it is, without a draw from [random]. *)
Theorem push_and_pop_below_capacity {A G : Type} `{!random.Source G}
  {version : torch.Version} (self : ReplayBuffer.t A) (g : G) (batch : torch.Tensor A) :
  torch.slices batch ≠ [] →
  (Z.of_nat (length (ReplayBuffer.data self) + length (torch.slices batch))
   ≤ ReplayBuffer.max_size self)%Z →
  ReplayBuffer.push_and_pop self g batch
  = (ReplayBuffer.with_data self
       (ReplayBuffer.data self ++ map torch.unsqueeze0 (torch.elements batch)),
     g, Return batch).
Proof.
  intros Hne Hroom. unfold ReplayBuffer.push_and_pop.
  rewrite push_and_pop_loop_room.
  - simpl. by rewrite cat_unsqueeze0.
  - unfold torch.elements. by rewrite length_fmap.
Qed.

Lemma push_and_pop_below_capacity_witness :
  ReplayBuffer.push_and_pop (version := Fixtures.torch_runtime_error)
    {| ReplayBuffer.max_size := 50; ReplayBuffer.data := [Fixtures.batch [3] [7]] |}
    42%Z (Fixtures.batch [3] [1; 2; 3])
  = ({| ReplayBuffer.max_size := 50;
        ReplayBuffer.data := [Fixtures.batch [3] [7]; Fixtures.batch [3] [1];
                              Fixtures.batch [3] [2]; Fixtures.batch [3] [3]] |},
     42%Z, Return (Fixtures.batch [3] [1; 2; 3])).
Proof.
  apply (push_and_pop_below_capacity (A := nat) (version := Fixtures.torch_runtime_error)
           {| ReplayBuffer.max_size := 50;
              ReplayBuffer.data := [Fixtures.batch [3] [7]] |}).
  - discriminate.
  - simpl. lia.
Defined.

(** ** [load_state_dict]: what every call keeps *)

Lemma rename_loop_wf {T : Type} (compile_mode : bool) (items d d' : Dict.t T) :
  rename_loop compile_mode items d = Return d' → Dict.wf d → Dict.wf d'.
Proof.
  revert d. induction items as [|kv items IH]; intros d Hret Hwf; simpl in Hret.
  - by injection Hret as <-.
  - apply bind_returns_inv in Hret as (d1 & Hstep & Hrest).
    rewrite rename_step_eq in Hstep.
    destruct (compile_mode && negb (String.eqb (prefix_token kv.1) compile_state));
      [discriminate|].
    injection Hstep as <-. eapply IH; [exact Hrest|]. by apply wf_set.
Qed.

Lemma wf_nil {V : Type} : Dict.wf ([] : Dict.t V).
Proof. unfold Dict.wf. simpl. apply NoDup_nil_2. Qed.

(** Two dictionaries with the same keys in the same order and the same
    values are the same. *)
Lemma dict_ext {V : Type} (d1 d2 : Dict.t V) :
  Dict.wf d1 → Dict.keys d1 = Dict.keys d2 →
  (∀ k, Dict.get d1 k = Dict.get d2 k) → d1 = d2.
Proof.
  unfold Dict.wf, Dict.keys. revert d2.
  induction d1 as [|[k v] d1 IH]; intros d2 Hwf Hkeys Hget.
  - by destruct d2.
  - destruct d2 as [|[k' v'] d2]; [done|]. simpl in Hkeys. injection Hkeys as <- Hkeys.
    change (d1.*1 = d2.*1) in Hkeys.
    apply NoDup_cons in Hwf as [Hk Hnd]. simpl in Hk.
    pose proof (Hget k) as Hhd. simpl in Hhd. rewrite String.eqb_refl in Hhd.
    injection Hhd as <-. f_equal. apply IH; [done..|].
    intros k0. pose proof (Hget k0) as Hk0. simpl in Hk0.
    destruct (String.eqb_spec k k0) as [Heq|_]; [|done]. subst k0.
    assert (Hnone : Dict.get d1 k = None) by by apply get_None_keys.
    rewrite Hnone. symmetry. apply get_None_keys. unfold Dict.keys. by rewrite <- Hkeys.
Qed.

Section merge_facts.
Context {T : Type} `{!nn.Tensor T}.
Implicit Types (m s : Dict.t T) (k : string).

Lemma wf_merged m s : Dict.wf m → Dict.wf (merged m s).
Proof. unfold Dict.wf. by rewrite keys_merged. Qed.

Lemma size_merged m s k :
  Dict.wf s →
  nn.tensor_size <$> Dict.get (merged m s) k = nn.tensor_size <$> Dict.get m k.
Proof.
  intros Hs. rewrite get_merged by done.
  destruct (Dict.get m k) as [old|]; [|done].
  destruct (Dict.get s k) as [new|]; [|done].
  destruct (decide _) as [Heq|_]; [|done]. simpl. by rewrite Heq.
Qed.

Lemma merged_idemp m s : Dict.wf m → Dict.wf s → merged (merged m s) s = merged m s.
Proof.
  intros Hm Hs. apply dict_ext.
  - by do 2 apply wf_merged.
  - by rewrite !keys_merged.
  - intros k. rewrite (get_merged (merged m s)) by done.
    rewrite get_merged by done.
    destruct (Dict.get m k) as [old|]; [|done].
    destruct (Dict.get s k) as [new|]; [|done].
    destruct (decide (nn.tensor_size new = nn.tensor_size old)) as [Heq|Hne].
    + by rewrite decide_True.
    + by rewrite decide_False.
Qed.

(** What a call that returns has done, whatever the mode and the source. *)
Lemma load_state_dict_returns_inv (model model' : nn.Module_ T) (compile_mode : bool)
  (state_dict : Dict.t T) :
  Dict.wf (nn.parameters model) →
  load_state_dict model compile_mode state_dict = Return model' →
  ∃ renamed,
    rename_loop compile_mode state_dict [] = Return renamed
    ∧ Dict.wf renamed
    ∧ model' = {| nn.parameters := merged (nn.parameters model) renamed |}.
Proof.
  intros Hm Hret. unfold load_state_dict in Hret.
  apply bind_returns_inv in Hret as (renamed & Hloop & Hload).
  assert (Hwf : Dict.wf renamed) by (eapply rename_loop_wf; [exact Hloop | apply wf_nil]).
  rewrite load_merged in Hload by done. injection Hload as <-.
  by exists renamed.
Qed.

End merge_facts.

(** Every value the renaming loop stores comes from the source. *)
Lemma rename_loop_values {T : Type} (compile_mode : bool) (items d d' : Dict.t T) :
  rename_loop compile_mode items d = Return d' →
  ∀ k v, Dict.get d' k = Some v → Dict.get d k = Some v ∨ v ∈ items.*2.
Proof.
  revert d. induction items as [|kv items IH]; intros d Hret k v Hget; simpl in Hret.
  - injection Hret as <-. by left.
  - apply bind_returns_inv in Hret as (d1 & Hstep & Hrest).
    rewrite rename_step_eq in Hstep.
    destruct (compile_mode && negb (String.eqb (prefix_token kv.1) compile_state));
      [discriminate|].
    injection Hstep as <-.
    destruct (IH _ Hrest k v Hget) as [Hd1|Hin].
    + rewrite get_set in Hd1. case_decide.
      * injection Hd1 as <-. right. simpl. apply list_elem_of_here.
      * by left.
    + right. simpl. by apply list_elem_of_further.
Qed.

(** A call that returns leaves the model with the keys it had, in the same
    order, and every parameter with the size it had; each parameter is the
    tensor the model had or a tensor of the source. *)
Theorem load_state_dict_keeps_keys_and_sizes {T : Type} `{!nn.Tensor T}
  (model model' : nn.Module_ T) (compile_mode : bool) (state_dict : Dict.t T) :
  Dict.wf (nn.parameters model) →
  load_state_dict model compile_mode state_dict = Return model' →
  Dict.keys (nn.parameters model') = Dict.keys (nn.parameters model)
  ∧ (∀ k, nn.tensor_size <$> Dict.get (nn.parameters model') k
          = nn.tensor_size <$> Dict.get (nn.parameters model) k)
  ∧ (∀ k v, Dict.get (nn.parameters model') k = Some v →
            Dict.get (nn.parameters model) k = Some v ∨ v ∈ state_dict.*2).
Proof.
  intros Hm Hret.
  destruct (load_state_dict_returns_inv _ _ _ _ Hm Hret) as (renamed & Hloop & Hwf & ->).
  simpl. split; [apply keys_merged|]. split; [intros k; by apply size_merged|].
  intros k v. rewrite get_merged by done.
  destruct (Dict.get (nn.parameters model) k) as [old|]; [|done].
  destruct (Dict.get renamed k) as [new|] eqn:Hnew; [|by left].
  destruct (decide _); [|by left]. intros [= <-]. right.
  destruct (rename_loop_values _ _ _ _ Hloop k new Hnew) as [?|?]; done.
Qed.

Lemma load_state_dict_keeps_keys_and_sizes_witness :
  ∃ model', load_state_dict Fixtures.target_a false Fixtures.source_ab = Return model'
            ∧ Dict.keys (nn.parameters model') = ["a"]
            ∧ nn.tensor_size <$> Dict.get (nn.parameters model') "a" = Some [3].
Proof.
  assert (Hret : load_state_dict Fixtures.target_a false Fixtures.source_ab
                 = Return {| nn.parameters := [("a", Fixtures.ones3)] |}) by reflexivity.
  eexists. split; [exact Hret|].
  destruct (load_state_dict_keeps_keys_and_sizes _ _ _ _
              (NoDup_singleton "a" : Dict.wf (nn.parameters Fixtures.target_a)) Hret)
    as (Hkeys & Hsizes & _).
  split; [exact Hkeys | exact (Hsizes "a")].
Defined.

(** Loading the same source a second time changes nothing. *)
Theorem load_state_dict_twice {T : Type} `{!nn.Tensor T}
  (model model' : nn.Module_ T) (compile_mode : bool) (state_dict : Dict.t T) :
  Dict.wf (nn.parameters model) →
  load_state_dict model compile_mode state_dict = Return model' →
  load_state_dict model' compile_mode state_dict = Return model'.
Proof.
  intros Hm Hret.
  destruct (load_state_dict_returns_inv _ _ _ _ Hm Hret) as (renamed & Hloop & Hwf & ->).
  unfold load_state_dict. rewrite Hloop. simpl.
  rewrite load_merged by (simpl; first [by apply wf_merged | done]).
  simpl. by rewrite merged_idemp.
Qed.

Lemma load_state_dict_twice_witness :
  ∃ model', load_state_dict Fixtures.target_a false Fixtures.source_ab = Return model'
            ∧ load_state_dict model' false Fixtures.source_ab = Return model'.
Proof.
  assert (Hret : load_state_dict Fixtures.target_a false Fixtures.source_ab
                 = Return {| nn.parameters := [("a", Fixtures.ones3)] |}) by reflexivity.
  eexists. split; [exact Hret|].
  apply (load_state_dict_twice Fixtures.target_a); [|exact Hret].
  apply NoDup_singleton.
Defined.

(** A source that has every parameter of the model, at the right size and
    under keys that fit the mode, replaces them all; entries of the source
    the model has no parameter for are dropped.  The model's own state
    dictionary gives back the model. *)
Theorem load_state_dict_restores {T : Type} `{!nn.Tensor T}
  (model : nn.Module_ T) (compile_mode : bool) (state_dict : Dict.t T) :
  Dict.wf (nn.parameters model) →
  Dict.wf state_dict →
  Forall (λ kv, String.eqb (prefix_token kv.1) compile_state = compile_mode) state_dict →
  (∀ k old, Dict.get (nn.parameters model) k = Some old →
            ∃ new, Dict.get state_dict k = Some new
                   ∧ nn.tensor_size new = nn.tensor_size old) →
  ∃ model',
    load_state_dict model compile_mode state_dict = Return model'
    ∧ (∀ k, k ∈ Dict.keys (nn.parameters model) →
            Dict.get (nn.parameters model') k = Dict.get state_dict k)
    ∧ (state_dict = nn.state_dict model → model' = model).
Proof.
  intros Hm Hs Hfit Hall.
  exists {| nn.parameters := merged (nn.parameters model) state_dict |}.
  assert (Hget : ∀ k, k ∈ Dict.keys (nn.parameters model) →
            Dict.get (merged (nn.parameters model) state_dict) k = Dict.get state_dict k).
  { intros k Hk. rewrite get_merged by done.
    destruct (Dict.get (nn.parameters model) k) as [old|] eqn:Hold.
    - destruct (Hall k old Hold) as (new & -> & Hsize). by rewrite decide_True.
    - by apply get_None_keys in Hold. }
  split; [|split].
  - unfold load_state_dict. rewrite rename_loop_keep, update_nil by done.
    simpl. by apply load_merged.
  - exact Hget.
  - intros ->. destruct model as [params]. simpl in *. f_equal.
    apply dict_ext; [by apply wf_merged | apply keys_merged |].
    intros k. destruct (decide (k ∈ Dict.keys params)) as [Hin|Hnin].
    + by apply Hget.
    + apply get_None_keys in Hnin as Hnone. rewrite Hnone.
      apply get_None_keys. by rewrite keys_merged.
Qed.

Lemma load_state_dict_restores_witness :
  ∃ model',
    load_state_dict Fixtures.compiled_a true Fixtures.source_compiled = Return model'
    ∧ Dict.get (nn.parameters model') "_orig_mod.a" = Some Fixtures.ones3.
Proof.
  destruct (load_state_dict_restores Fixtures.compiled_a true Fixtures.source_compiled)
    as (model' & Hret & Hget & _).
  - apply NoDup_singleton.
  - unfold Dict.wf. simpl. apply NoDup_cons. split; [|apply NoDup_singleton].
    rewrite list_elem_of_singleton. discriminate.
  - repeat constructor.
  - intros k old. unfold Fixtures.compiled_a, nn.parameters, Dict.get.
    destruct (String.eqb_spec "_orig_mod.a" k) as [<-|_]; [|discriminate].
    intros [= <-]. exists Fixtures.ones3. split; reflexivity.
  - exists model'. split; [exact Hret|]. rewrite Hget; [reflexivity|].
    apply list_elem_of_here.
Defined.

Lemma rename_loop_compiled_keys {T : Type} (items d : Dict.t T) :
  rename_loop false (compiled_keys items) d = Return (Dict.update d items).
Proof.
  revert d. induction items as [|[k v] items IH]; intros d; [done|].
  change (rename_loop false (compiled_keys ((k, v) :: items)) d)
    with (rename_step false d (compile_state +:+ "." +:+ k, v)
            ≫= rename_loop false (compiled_keys items)).
  rewrite rename_step_eq. cbn [fst snd andb].
  assert (Hprefix : prefix_token (compile_state +:+ "." +:+ k) = compile_state)
    by reflexivity.
  assert (Hname : rename_key false (prefix_token (compile_state +:+ "." +:+ k))
                    (compile_state +:+ "." +:+ k) = k).
  { unfold rename_key. rewrite Hprefix. simpl.
    exact (slice_from_app "_orig_mod." k). }
  rewrite Hname. simpl. apply IH.
Qed.

(** A checkpoint written by a compiled model loads into a model that is not
    compiled: out of compile mode the marker is stripped from every key, and
    the call does what it does on the same entries under their plain names. *)
Theorem load_state_dict_compiled_checkpoint {T : Type} `{!nn.Tensor T}
  (model : nn.Module_ T) (state_dict : Dict.t T) :
  Dict.wf (nn.parameters model) →
  Dict.wf state_dict →
  rename_loop false (compiled_keys state_dict) [] = Return state_dict
  ∧ load_state_dict model false (compiled_keys state_dict)
    = Return {| nn.parameters := merged (nn.parameters model) state_dict |}
  ∧ (Forall (λ kv, prefix_token kv.1 ≠ compile_state) state_dict →
     load_state_dict model false (compiled_keys state_dict)
     = load_state_dict model false state_dict).
Proof.
  intros Hm Hs.
  assert (Hloop : rename_loop false (compiled_keys state_dict) [] = Return state_dict).
  { by rewrite rename_loop_compiled_keys, update_nil. }
  assert (Hload : load_state_dict model false (compiled_keys state_dict)
                  = Return {| nn.parameters := merged (nn.parameters model) state_dict |}).
  { unfold load_state_dict. rewrite Hloop. simpl. by apply load_merged. }
  split; [done|]. split; [done|]. intros Hplain. rewrite Hload.
  unfold load_state_dict. rewrite rename_loop_keep, update_nil; [|done|].
  - simpl. symmetry. by apply load_merged.
  - eapply Forall_impl; [exact Hplain|]. intros kv Hkv. simpl in Hkv.
    by destruct (String.eqb_spec (prefix_token kv.1) compile_state).
Qed.

Lemma load_state_dict_compiled_checkpoint_witness :
  load_state_dict Fixtures.target_a false (compiled_keys Fixtures.source_ab)
  = load_state_dict Fixtures.target_a false Fixtures.source_ab.
Proof.
  apply (load_state_dict_compiled_checkpoint Fixtures.target_a Fixtures.source_ab).
  - apply NoDup_singleton.
  - unfold Dict.wf. simpl. apply NoDup_cons. split; [|apply NoDup_singleton].
    rewrite list_elem_of_singleton. discriminate.
  - repeat constructor; simpl; discriminate.
Defined.

(** ** Saving, then loading *)



(** ** [load_resume_state_dict] *)

Section resume_facts.
Context {T O OSt Sch SSt : Type} `{!nn.Tensor T} `{!Stateful O OSt} `{!Stateful Sch SSt}.
Implicit Types (h : Handles T O Sch) (w : IO.World (Checkpoint T OSt SSt)).

(** The call in terms of its steps, once the file, the epoch, the state
    dictionary and the model's load are there. *)
Lemma load_resume_unfold h (compile_mode : bool) (f : string) w
  (checkpoint : Checkpoint T OSt SSt) (start_epoch : Z) (state_dict : Dict.t T)
  (model' : nn.Module_ T) :
  IO.files w !! f = Some checkpoint →
  ck_epoch checkpoint = Some start_epoch →
  ck_state_dict checkpoint = Some state_dict →
  load_state_dict (model h) compile_mode state_dict = Return model' →
  load_pretrained_state_dict (model h) compile_mode f w = Done model'
  ∧ load_resume_state_dict h compile_mode f w
    = let h1 := {| model := model'; ema_model := ema_model h;
                   optimizer := optimizer h; scheduler := scheduler h |} in
      match load_ema (ema_model h) compile_mode
                     (default None (ck_ema_state_dict checkpoint)) with
      | Failed e => (h1, Failed e)
      | Done ema' =>
          let h2 := {| model := model'; ema_model := ema';
                       optimizer := optimizer h; scheduler := scheduler h |} in
          match subscript "optimizer" (ck_optimizer checkpoint) with
          | Failed e => (h2, Failed e)
          | Done optimizer_state =>
              match load_state (optimizer h) optimizer_state with
              | Raise e => (h2, Failed (Exn e))
              | Return optimizer' =>
                  let h3 := {| model := model'; ema_model := ema';
                               optimizer := optimizer'; scheduler := scheduler h |} in
                  match scheduler h with
                  | None => (h3, Done (Tuple4 model' ema' start_epoch optimizer'))
                  | Some sch =>
                      match subscript "scheduler" (ck_scheduler checkpoint) with
                      | Failed e => (h3, Failed e)
                      | Done scheduler_state =>
                          match load_state sch scheduler_state with
                          | Raise e => (h3, Failed (Exn e))
                          | Return sch' =>
                              ({| model := model'; ema_model := ema';
                                  optimizer := optimizer'; scheduler := Some sch' |},
                               Done (Tuple5 model' ema' start_epoch optimizer' sch'))
                          end
                      end
                  end
              end
          end
      end.
Proof.
  intros Hfile Hepoch Hsd Hload. split.
  - unfold load_pretrained_state_dict, torch_load. rewrite Hfile. simpl.
    rewrite Hsd. simpl. by rewrite Hload.
  - unfold load_resume_state_dict, torch_load. rewrite Hfile, Hepoch, Hsd. simpl.
    rewrite Hload. simpl.
    assert (Hema : match ck_ema_state_dict checkpoint with
                   | Some entry => entry
                   | None => None
                   end = default None (ck_ema_state_dict checkpoint))
      by by destruct (ck_ema_state_dict checkpoint).
    rewrite Hema.
    repeat match goal with
           | |- context [match ?x with _ => _ end] => destruct x; simpl
           end; done.
Qed.

(** The call before its first change: what makes it fail with every object
    as it was. *)
Lemma load_resume_early h (compile_mode : bool) (f : string) w :
  (IO.files w !! f = None
   ∨ ∃ checkpoint, IO.files w !! f = Some checkpoint
       ∧ (ck_epoch checkpoint = None
          ∨ ck_state_dict checkpoint = None
          ∨ ∃ state_dict e, ck_state_dict checkpoint = Some state_dict
              ∧ load_state_dict (model h) compile_mode state_dict = Raise e)) →
  ∃ e, load_resume_state_dict h compile_mode f w = (h, Failed e).
Proof.
  unfold load_resume_state_dict, torch_load.
  intros [->|(checkpoint & -> & Hck)]; [by eexists|].
  destruct (ck_epoch checkpoint) as [start_epoch|]; simpl; [|by eexists].
  destruct (ck_state_dict checkpoint) as [state_dict|]; simpl; [|by eexists].
  destruct Hck as [?|[?|(sd & e & [= <-] & ->)]]; [done..|]. by eexists.
Qed.

End resume_facts.

(** A call that returns has read the epoch of the checkpoint, loaded the
    model as [load_pretrained_state_dict] does, loaded the EMA model when the
    checkpoint has EMA weights and left it alone otherwise, loaded the
    optimizer, and loaded the scheduler if one was passed; the tuple lists
    the objects as they now are, four of them without a scheduler and five
    with one. *)
Theorem load_resume_state_dict_returns {T O OSt Sch SSt : Type} `{!nn.Tensor T}
  `{!Stateful O OSt} `{!Stateful Sch SSt}
  (h h' : Handles T O Sch) (compile_mode : bool) (f : string)
  (w : IO.World (Checkpoint T OSt SSt)) (r : Resumed T O Sch) :
  load_resume_state_dict h compile_mode f w = (h', Done r) →
  ∃ checkpoint start_epoch optimizer_state,
    IO.files w !! f = Some checkpoint
    ∧ ck_epoch checkpoint = Some start_epoch
    ∧ load_pretrained_state_dict (model h) compile_mode f w = Done (model h')
    ∧ load_ema (ema_model h) compile_mode (default None (ck_ema_state_dict checkpoint))
      = Done (ema_model h')
    ∧ (default None (ck_ema_state_dict checkpoint) = None → ema_model h' = ema_model h)
    ∧ ck_optimizer checkpoint = Some optimizer_state
    ∧ load_state (optimizer h) optimizer_state = Return (optimizer h')
    ∧ match scheduler h with
      | None =>
          scheduler h' = None
          ∧ r = Tuple4 (model h') (ema_model h') start_epoch (optimizer h')
      | Some sch =>
          ∃ scheduler_state sch',
            ck_scheduler checkpoint = Some scheduler_state
            ∧ load_state sch scheduler_state = Return sch'
            ∧ scheduler h' = Some sch'
            ∧ r = Tuple5 (model h') (ema_model h') start_epoch (optimizer h') sch'
      end.
Proof.
  intros Hret.
  destruct (IO.files w !! f) as [checkpoint|] eqn:Hfile; cycle 1.
  { destruct (load_resume_early h compile_mode f w) as (e & He); [by left|].
    rewrite He in Hret. discriminate. }
  destruct (ck_epoch checkpoint) as [start_epoch|] eqn:Hepoch; cycle 1.
  { destruct (load_resume_early h compile_mode f w) as (e & He); [right; eauto|].
    rewrite He in Hret. discriminate. }
  destruct (ck_state_dict checkpoint) as [state_dict|] eqn:Hsd; cycle 1.
  { destruct (load_resume_early h compile_mode f w) as (e & He); [right; eauto|].
    rewrite He in Hret. discriminate. }
  destruct (load_state_dict (model h) compile_mode state_dict) as [model'|e0] eqn:Hload;
    cycle 1.
  { destruct (load_resume_early h compile_mode f w) as (e & He).
    - right. exists checkpoint. split; [done|]. right; right. by exists state_dict, e0.
    - rewrite He in Hret. discriminate. }
  destruct (load_resume_unfold h compile_mode f w _ _ _ _ Hfile Hepoch Hsd Hload)
    as [Hpre Hcall].
  rewrite Hcall in Hret. clear Hcall. cbv zeta in Hret.
  destruct (load_ema _ _ _) as [ema'|] eqn:Hema; [|discriminate].
  destruct (ck_optimizer checkpoint) as [optimizer_state|] eqn:Hopt; [|discriminate].
  simpl in Hret.
  destruct (load_state (optimizer h) optimizer_state) as [optimizer'|] eqn:Hoptload;
    [|discriminate].
  exists checkpoint, start_epoch, optimizer_state.
  assert (Hnoema : default None (ck_ema_state_dict checkpoint) = None →
                   ema' = ema_model h).
  { intros Hnone. rewrite Hnone in Hema. simpl in Hema. by injection Hema as <-. }
  destruct (scheduler h) as [sch|] eqn:Hsch.
  - destruct (ck_scheduler checkpoint) as [scheduler_state|] eqn:Hsst; [|discriminate].
    simpl in Hret.
    destruct (load_state sch scheduler_state) as [sch'|] eqn:Hschload; [|discriminate].
    injection Hret as <- <-. simpl. repeat (split; [done|]).
    by exists scheduler_state, sch'.
  - injection Hret as <- <-. simpl. by repeat (split; [done|]).
Qed.

Lemma load_resume_state_dict_returns_witness :
  load_resume_state_dict Examples.handles_a false "results/g_last.pth.tar"
                         (Examples.disk Examples.checkpoint_a)
  = ({| model := {| nn.parameters := [("a", Fixtures.ones3)] |}; ema_model := None;
        optimizer := 11; scheduler := None |},
     Done (Tuple4 {| nn.parameters := [("a", Fixtures.ones3)] |} None 7%Z 11))
  ∧ load_pretrained_state_dict Fixtures.target_a false "results/g_last.pth.tar"
                               (Examples.disk Examples.checkpoint_a)
    = Done {| nn.parameters := [("a", Fixtures.ones3)] |}.
Proof.
  assert (Hret : load_resume_state_dict Examples.handles_a false "results/g_last.pth.tar"
                   (Examples.disk Examples.checkpoint_a)
                 = ({| model := {| nn.parameters := [("a", Fixtures.ones3)] |};
                       ema_model := None; optimizer := 11; scheduler := None |},
                    Done (Tuple4 {| nn.parameters := [("a", Fixtures.ones3)] |}
                                 None 7%Z 11)))
    by (vm_compute; reflexivity).
  split; [exact Hret|].
  destruct (load_resume_state_dict_returns _ _ _ _ _ _ Hret)
    as (? & ? & ? & _ & _ & Hpre & _).
  exact Hpre.
Defined.

(** A call that fails never has touched the scheduler.  It leaves every
    object as it was when the file is missing, when the checkpoint lacks the
    epoch or the state dictionary, and when the model's load raises; in every
    other case the model has been overwritten by the time the failure
    occurs. *)
Theorem load_resume_state_dict_fails {T O OSt Sch SSt : Type} `{!nn.Tensor T}
  `{!Stateful O OSt} `{!Stateful Sch SSt}
  (h h' : Handles T O Sch) (compile_mode : bool) (f : string)
  (w : IO.World (Checkpoint T OSt SSt)) (e : error) :
  load_resume_state_dict h compile_mode f w = (h', Failed e) →
  scheduler h' = scheduler h
  ∧ ((∃ e', load_pretrained_state_dict (model h) compile_mode f w = Failed e') → h' = h)
  ∧ (∀ checkpoint, IO.files w !! f = Some checkpoint → ck_epoch checkpoint = None →
                   h' = h)
  ∧ (∀ checkpoint model',
       IO.files w !! f = Some checkpoint → is_Some (ck_epoch checkpoint) →
       load_pretrained_state_dict (model h) compile_mode f w = Done model' →
       model h' = model').
Proof.
  intros Hret.
  assert (Hearly : ∀ cond, cond →
            (cond → ∃ e0, load_resume_state_dict h compile_mode f w = (h, Failed e0)) →
            h' = h).
  { intros cond Hc Himp. destruct (Himp Hc) as (e0 & He0). rewrite He0 in Hret.
    by injection Hret as <- _. }
  assert (Hpre_eq : load_pretrained_state_dict (model h) compile_mode f w
                    = (checkpoint ← torch_load f w;
                       state_dict ← subscript "state_dict" (ck_state_dict checkpoint);
                       of_result (load_state_dict (model h) compile_mode state_dict)))
    by reflexivity.
  unfold torch_load in Hpre_eq.
  destruct (IO.files w !! f) as [checkpoint|] eqn:Hfile; cycle 1.
  { assert (h' = h) as -> by (eapply Hearly; [exact Hfile|];
      intros ?; apply load_resume_early; by left).
    split; [done|]. split; [done|]. split; [done|]. intros ck m Hf. discriminate Hf. }
  destruct (ck_epoch checkpoint) as [start_epoch|] eqn:Hepoch; cycle 1.
  { assert (h' = h) as -> by (eapply Hearly; [exact Hepoch|];
      intros ?; apply load_resume_early; right; eauto).
    split; [done|]. split; [done|]. split; [done|].
    intros ck m [= <-] [? Hsome]. congruence. }
  destruct (ck_state_dict checkpoint) as [state_dict|] eqn:Hsd; cycle 1.
  { assert (h' = h) as -> by (eapply Hearly; [exact Hsd|];
      intros ?; apply load_resume_early; right; eauto).
    split; [done|]. split; [done|]. split; [done|].
    intros ck m _ _. rewrite Hpre_eq. simpl. rewrite Hsd. discriminate. }
  destruct (load_state_dict (model h) compile_mode state_dict) as [model'|e0] eqn:Hload;
    cycle 1.
  { assert (h' = h) as ->.
    { eapply Hearly; [exact Hload|]. intros ?. apply load_resume_early. right.
      exists checkpoint. split; [done|]. right; right. by exists state_dict, e0. }
    split; [done|]. split; [done|]. split; [done|].
    intros ck m _ _. rewrite Hpre_eq. simpl. rewrite Hsd. simpl. rewrite Hload.
    discriminate. }
  clear Hpre_eq.
  destruct (load_resume_unfold h compile_mode f w _ _ _ _ Hfile Hepoch Hsd Hload)
    as [Hpre Hcall].
  rewrite Hcall in Hret. clear Hcall. cbv zeta in Hret.
  assert (Hlate : scheduler h' = scheduler h ∧ model h' = model').
  { repeat match type of Hret with
           | context [match ?x with _ => _ end] => destruct x; simpl in Hret
           end; try discriminate; by injection Hret as <- _. }
  destruct Hlate as [Hs Hm]. split; [done|]. split; [|split].
  - intros [e' He']. rewrite Hpre in He'. discriminate.
  - intros ck [= <-] Hnone. congruence.
  - intros ck m _ _. rewrite Hpre. by intros [= <-].
Qed.

Lemma load_resume_state_dict_fails_witness :
  load_resume_state_dict Examples.handles_a false "results/g_last.pth.tar"
                         (Examples.disk Examples.checkpoint_no_optimizer)
  = ({| model := {| nn.parameters := [("a", Fixtures.ones3)] |}; ema_model := None;
        optimizer := 0; scheduler := None |},
     Failed (KeyError "optimizer"))
  ∧ (∀ model', load_pretrained_state_dict Fixtures.target_a false
                 "results/g_last.pth.tar" (Examples.disk Examples.checkpoint_no_optimizer)
               = Done model' →
               {| nn.parameters := [("a", Fixtures.ones3)] |} = model').
Proof.
  assert (Hret : load_resume_state_dict Examples.handles_a false "results/g_last.pth.tar"
                   (Examples.disk Examples.checkpoint_no_optimizer)
                 = ({| model := {| nn.parameters := [("a", Fixtures.ones3)] |};
                       ema_model := None; optimizer := 0; scheduler := None |},
                    Failed (KeyError "optimizer")))
    by (vm_compute; reflexivity).
  split; [exact Hret|].
  destruct (load_resume_state_dict_fails _ _ _ _ _ _ Hret) as (_ & _ & _ & Hmodel).
  intros model'. apply (Hmodel Examples.checkpoint_no_optimizer); [reflexivity|].
  by exists 7%Z.
Defined.

(** A checkpoint with EMA weights cannot be resumed without an EMA model:
    the call fails with AttributeError, after the model has been loaded and
    before the optimizer is. *)
Theorem load_resume_state_dict_without_ema_model {T O OSt Sch SSt : Type} `{!nn.Tensor T}
  `{!Stateful O OSt} `{!Stateful Sch SSt}
  (h : Handles T O Sch) (compile_mode : bool) (f : string)
  (w : IO.World (Checkpoint T OSt SSt)) (checkpoint : Checkpoint T OSt SSt)
  (ema_state_dict : Dict.t T) (model' : nn.Module_ T) :
  IO.files w !! f = Some checkpoint →
  is_Some (ck_epoch checkpoint) →
  ck_ema_state_dict checkpoint = Some (Some ema_state_dict) →
  ema_model h = None →
  load_pretrained_state_dict (model h) compile_mode f w = Done model' →
  load_resume_state_dict h compile_mode f w
  = ({| model := model'; ema_model := None;
        optimizer := optimizer h; scheduler := scheduler h |},
     Failed (AttributeError "'NoneType' object has no attribute 'state_dict'")).
Proof.
  intros Hfile [start_epoch Hepoch] Hema Hnone Hpre.
  unfold load_pretrained_state_dict, torch_load in Hpre. rewrite Hfile in Hpre.
  simpl in Hpre.
  destruct (ck_state_dict checkpoint) as [state_dict|] eqn:Hsd; [|discriminate].
  simpl in Hpre.
  destruct (load_state_dict (model h) compile_mode state_dict) as [m|] eqn:Hload;
    [|discriminate].
  injection Hpre as ->.
  destruct (load_resume_unfold h compile_mode f w _ _ _ _ Hfile Hepoch Hsd Hload)
    as [_ ->].
  rewrite Hema, Hnone. reflexivity.
Qed.

Lemma load_resume_state_dict_without_ema_model_witness :
  load_resume_state_dict Examples.handles_a false "results/g_last.pth.tar"
                         (Examples.disk Examples.checkpoint_ema)
  = ({| model := {| nn.parameters := [("a", Fixtures.ones3)] |}; ema_model := None;
        optimizer := 0; scheduler := None |},
     Failed (AttributeError "'NoneType' object has no attribute 'state_dict'")).
Proof.
  apply (load_resume_state_dict_without_ema_model Examples.handles_a false _ _
           Examples.checkpoint_ema [("a", Fixtures.ones3)]).
  - reflexivity.
  - by exists 7%Z.
  - reflexivity.
  - reflexivity.
  - vm_compute. reflexivity.
Defined.

(** ** [make_directory] *)

(** [make_directory] leaves an existing path alone and returns; a call that
    returns has made the path exist, so that a second call changes nothing
    and returns too. *)
Theorem make_directory_twice {F : Type} `{!os.FileSystem F} (dir_path : string) (fs : F) :
  (os.path_exists dir_path fs = true → make_directory dir_path fs = (fs, Done tt))
  ∧ (∀ fs', make_directory dir_path fs = (fs', Done tt) →
            os.path_exists dir_path fs' = true
            ∧ make_directory dir_path fs' = (fs', Done tt)).
Proof.
  assert (Hexists : ∀ fs0 : F, os.path_exists dir_path fs0 = true →
                               make_directory dir_path fs0 = (fs0, Done tt)).
  { intros fs0 H0. unfold make_directory. by rewrite H0. }
  split; [apply Hexists|]. intros fs' Hcall.
  assert (Hnow : os.path_exists dir_path fs' = true).
  { unfold make_directory in Hcall.
    destruct (os.path_exists dir_path fs) eqn:Hbefore; simpl in Hcall.
    - by injection Hcall as <-.
    - by eapply os.makedirs_done. }
  split; [exact Hnow | by apply Hexists].
Qed.

Lemma make_directory_twice_witness :
  make_directory "results/exp" (∅ : gset string) = ({["results/exp"]}, Done tt)
  ∧ make_directory "results/exp" ({["results/exp"]} : gset string)
    = ({["results/exp"]}, Done tt).
Proof.
  assert (Hfirst : make_directory "results/exp" (∅ : gset string)
                   = ({["results/exp"]}, Done tt)) by (vm_compute; reflexivity).
  split; [exact Hfirst|].
  apply (make_directory_twice "results/exp" (∅ : gset string)). exact Hfirst.
Defined.

(** ** [ReplayBuffer]: filling up, and what a full buffer keeps *)

Lemma concat_Permutation {B : Type} (l l' : list (list B)) :
  l ≡ₚ l' → concat l ≡ₚ concat l'.
Proof.
  induction 1 as [|x l l' _ IH|x y l|l l' l'' _ IH1 _ IH2]; simpl.
  - done.
  - by apply Permutation_app_head.
  - rewrite !app_assoc. apply Permutation_app_tail, Permutation_app_comm.
  - by etrans.
Qed.

Section replay_buffer_steps.
Context {A G : Type} `{!random.Source G}.
Implicit Types (self : ReplayBuffer.t A) (g : G).

(** The stored units after the loop: as many as before plus one per sample,
    up to the capacity. *)
Lemma push_and_pop_loop_length (elements : list (list nat * A)) self g
  (to_return : list (torch.Tensor A)) :
  ReplayBuffer.ok self →
  Z.of_nat (length (ReplayBuffer.data (ReplayBuffer.push_and_pop_loop
                                         elements self g to_return).1.1))
  = Z.min (ReplayBuffer.max_size self)
          (Z.of_nat (length (ReplayBuffer.data self) + length elements)).
Proof.
  revert self g to_return.
  induction elements as [|x rest IH]; intros self g to_return Hok.
  - simpl. destruct Hok as (_ & Hcap & _). lia.
  - destruct (push_and_pop_loop_step x rest self g to_return Hok)
      as (self1 & g1 & unit & -> & Hok1 & Hmax & Hcase).
    rewrite IH by done. rewrite Hmax. destruct Hok as (_ & Hcap & _).
    destruct Hcase as [(Hroom & -> & _)|[(Hfull & -> & _)|(Hfull & i & _ & ->)]].
    + rewrite length_app. simpl. lia.
    + simpl. lia.
    + rewrite length_insert. simpl. lia.
Qed.

(** On a full buffer the loop moves units around: the stored units and the
    emitted ones together are the stored units and those of the samples. *)
Lemma push_and_pop_loop_full (elements : list (list nat * A)) self g
  (to_return : list (torch.Tensor A)) :
  ReplayBuffer.ok self →
  Z.of_nat (length (ReplayBuffer.data self)) = ReplayBuffer.max_size self →
  ∃ self' g' emitted,
    ReplayBuffer.push_and_pop_loop elements self g to_return
    = (self', g', Return (to_return ++ emitted))
    ∧ length emitted = length elements
    ∧ ReplayBuffer.data self' ++ emitted
      ≡ₚ ReplayBuffer.data self ++ map torch.unsqueeze0 elements.
Proof.
  revert self g to_return.
  induction elements as [|x rest IH]; intros self g to_return Hok Hfull.
  - exists self, g, []. simpl. by rewrite !app_nil_r.
  - destruct (push_and_pop_loop_step x rest self g to_return Hok)
      as (self1 & g1 & unit & -> & Hok1 & Hmax & Hcase).
    assert (Hstep : Z.of_nat (length (ReplayBuffer.data self1)) = ReplayBuffer.max_size self1
                    ∧ ReplayBuffer.data self1 ++ [unit]
                      ≡ₚ ReplayBuffer.data self ++ [torch.unsqueeze0 x]).
    { destruct Hcase as [(Hroom & _)|[(_ & -> & ->)|(_ & i & Hi & ->)]].
      - lia.
      - split; [congruence | done].
      - split; [rewrite length_insert; congruence|].
        apply lookup_lt_Some in Hi as Hlt.
        rewrite insert_take_drop by done.
        rewrite <- (take_drop_middle _ _ _ Hi) at 3.
        rewrite <- !app_assoc. apply Permutation_app_head. simpl.
        rewrite (Permutation_app_comm _ [unit]).
        rewrite (Permutation_app_comm _ [torch.unsqueeze0 x]). simpl.
        apply perm_swap. }
    destruct Hstep as [Hfull1 Hperm].
    destruct (IH self1 g1 (to_return ++ [unit]) Hok1 Hfull1)
      as (self' & g' & emitted & -> & Hlen & Hperm').
    exists self', g', (unit :: emitted). split; [by rewrite <- app_assoc|].
    split; [simpl; lia|]. cbn [map].
    rewrite <- Permutation_middle, Hperm'.
    change (unit :: ?l) with ([unit] ++ l).
    rewrite app_assoc, (Permutation_app_comm [unit]), Hperm, <- app_assoc. done.
Qed.

End replay_buffer_steps.

(** A call adds one stored unit per sample until the buffer is full, and a
    full buffer stays full: the count after the call is the smaller of the
    capacity and the count before plus the size of the batch. *)
Theorem push_and_pop_fills {A G : Type} `{!random.Source G} {version : torch.Version}
  (self : ReplayBuffer.t A) (g : G) (batch : torch.Tensor A) :
  ReplayBuffer.reachable (G := G) self →
  Z.of_nat (length (ReplayBuffer.data (ReplayBuffer.push_and_pop self g batch).1.1))
  = Z.min (ReplayBuffer.max_size self)
          (Z.of_nat (length (ReplayBuffer.data self) + length (torch.slices batch))).
Proof.
  intros Hreach. apply reachable_ok in Hreach as Hok.
  pose proof (push_and_pop_loop_length (torch.elements batch) self g [] Hok) as Hlen.
  unfold torch.elements in Hlen at 2. rewrite length_fmap in Hlen. rewrite <- Hlen.
  unfold ReplayBuffer.push_and_pop.
  by destruct (ReplayBuffer.push_and_pop_loop (torch.elements batch) self g [])
    as [[self' g'] r].
Qed.

Lemma push_and_pop_fills_witness :
  length (ReplayBuffer.data
     (ReplayBuffer.push_and_pop (version := Fixtures.torch_runtime_error)
        {| ReplayBuffer.max_size := 3; ReplayBuffer.data := [] |} 42%Z
        Fixtures.five_samples).1.1)
  = 3.
Proof.
  apply Nat2Z.inj.
  rewrite (push_and_pop_fills (G := Z) (version := Fixtures.torch_runtime_error)
             {| ReplayBuffer.max_size := 3; ReplayBuffer.data := [] |} 42%Z
             Fixtures.five_samples).
  - reflexivity.
  - by apply (ReplayBuffer.reachable_init 3).
Defined.

(** On a full buffer whose samples have the size of those of the batch, a
    call neither loses nor duplicates a sample: the samples stored and
    returned after the call are, up to their order, the samples stored and
    given before it. *)
Theorem push_and_pop_full_keeps_samples {A G : Type} `{!random.Source G}
  {version : torch.Version} (self : ReplayBuffer.t A) (g : G) (batch : torch.Tensor A) :
  ReplayBuffer.reachable (G := G) self →
  Z.of_nat (length (ReplayBuffer.data self)) = ReplayBuffer.max_size self →
  torch.slices batch ≠ [] →
  Forall (λ unit, torch.slice_size unit = torch.slice_size batch)
         (ReplayBuffer.data self) →
  ∃ out,
    (ReplayBuffer.push_and_pop self g batch).2 = Return out
    ∧ ReplayBuffer.samples (ReplayBuffer.push_and_pop self g batch).1.1
        ++ torch.slices out
      ≡ₚ ReplayBuffer.samples self ++ torch.slices batch.
Proof.
  intros Hreach Hfull Hne Hsizes. apply reachable_ok in Hreach as Hok.
  destruct (push_and_pop_loop_full (torch.elements batch) self g [] Hok Hfull)
    as (self' & g' & emitted & Hloop & Hlen & Hperm).
  unfold ReplayBuffer.push_and_pop. rewrite Hloop. simpl.
  assert (Hunits : Forall (λ unit, torch.slice_size unit = torch.slice_size batch)
                          (ReplayBuffer.data self
                             ++ map torch.unsqueeze0 (torch.elements batch))).
  { apply Forall_app. split; [done|]. apply Forall_forall. intros unit Hunit.
    apply list_elem_of_In, in_map_iff in Hunit as (element & <- & Hin).
    apply list_elem_of_In, list_elem_of_lookup in Hin as (i & Hi).
    by apply lookup_elements in Hi as (x & _ & ->). }
  rewrite <- Hperm in Hunits. apply Forall_app in Hunits as [_ Hemitted].
  rewrite (cat_same_size emitted (torch.slice_size batch)); [|..|done].
  - eexists. split; [reflexivity|]. simpl. unfold ReplayBuffer.samples.
    rewrite <- !concat_app, <- !fmap_app.
    rewrite <- (slices_unsqueeze0 batch), <- concat_app, <- fmap_app.
    apply concat_Permutation, fmap_Permutation. exact Hperm.
  - intros ->. unfold torch.elements in Hlen. rewrite length_fmap in Hlen.
    destruct (torch.slices batch); [done | discriminate].
Qed.

Lemma push_and_pop_full_keeps_samples_witness :
  ∃ out : torch.Tensor nat,
    (ReplayBuffer.push_and_pop (version := Fixtures.torch_runtime_error)
       {| ReplayBuffer.max_size := 2;
          ReplayBuffer.data := [Fixtures.batch [3] [1]; Fixtures.batch [3] [2]] |} 7%Z
       (Fixtures.batch [3] [3; 4; 5])).2 = Return out
    ∧ ReplayBuffer.samples
        (ReplayBuffer.push_and_pop (version := Fixtures.torch_runtime_error)
           {| ReplayBuffer.max_size := 2;
              ReplayBuffer.data := [Fixtures.batch [3] [1]; Fixtures.batch [3] [2]] |} 7%Z
           (Fixtures.batch [3] [3; 4; 5])).1.1 ++ torch.slices out
      ≡ₚ [1; 2; 3; 4; 5].
Proof.
  apply (push_and_pop_full_keeps_samples (G := Z) (version := Fixtures.torch_runtime_error)
           {| ReplayBuffer.max_size := 2;
              ReplayBuffer.data := [Fixtures.batch [3] [1]; Fixtures.batch [3] [2]] |} 7%Z
           (Fixtures.batch [3] [3; 4; 5])).
  - apply (ReplayBuffer.reachable_push
             {| ReplayBuffer.max_size := 2; ReplayBuffer.data := [] |} 0%Z
             (Fixtures.batch [3] [1; 2])).
    by apply (ReplayBuffer.reachable_init 2).
  - reflexivity.
  - discriminate.
  - repeat constructor.
Defined.

(** ** [save_checkpoint] over a run *)





(** ** [DecayLR] within the schedule *)

(** During training, that is while [epoch + offset <= epochs], a constructed
    schedule returns at every epoch, whatever the size of the numbers, and
    the factor is a float between 0.0 and 1.0. *)
Theorem DecayLR_step_in_unit_interval (epochs offset decay_epochs : Z)
  (self : DecayLR.t) (epoch : Z) :
  DecayLR.__init__ epochs offset decay_epochs = Return self →
  (epoch + offset ≤ epochs)%Z →
  ∃ q, DecayLR.step self epoch = Return q ∧ (0 <= q)%Q ∧ (q <= 1)%Q.
Proof.
  unfold DecayLR.__init__. simpl.
  destruct (Z.gtb_spec (epochs - decay_epochs) 0) as [Hspan|_]; [|discriminate].
  intros [= <-] Hin. rewrite step_unfold by (simpl; lia). simpl.
  set (a := Z.max 0 (epoch + offset - decay_epochs)).
  set (span := (epochs - decay_epochs)%Z) in *.
  assert (Hspan' : (0 < span)%Z) by lia.
  assert (Hlow : (0 <= inject_Z a / inject_Z span)%Q).
  { rewrite <- (quotient_0 span Hspan'). apply quotient_le; [done|]. subst a. lia. }
  assert (Hhigh : (inject_Z a / inject_Z span <= 1)%Q).
  { rewrite <- (quotient_1 span Hspan'). apply quotient_le; [done|]. subst a span. lia. }
  apply round_mono in Hlow, Hhigh. rewrite round_0 in Hlow. rewrite round_1 in Hhigh.
  set (q := Float.round (inject_Z a / inject_Z span)) in *.
  rewrite (finite_below q 1); [|lra|lra|by vm_compute].
  eexists. split; [reflexivity|].
  assert (H0 : (0 <= 1 - q)%Q) by lra. assert (H1 : (1 - q <= 1)%Q) by lra.
  apply round_mono in H0, H1. rewrite round_0 in H0. rewrite round_1 in H1. done.
Qed.

Lemma DecayLR_step_in_unit_interval_witness :
  ∃ q, DecayLR.step {| DecayLR.epochs := 200; DecayLR.offset := 0;
                       DecayLR.decay_epochs := 100 |} 120 = Return q
       ∧ (0 <= q)%Q ∧ (q <= 1)%Q.
Proof.
  apply (DecayLR_step_in_unit_interval 200 0 100); [reflexivity | lia].
Defined.

(** ** Text and [ProgressMeter] *)

(** *** Text *)

Lemma length_append (a b : string) :
  String.length (a +:+ b) = (String.length a + String.length b)%nat.
Proof. induction a as [|c a IH]; [done|]. rewrite append_String. simpl. by rewrite IH. Qed.

Lemma append_assoc (a b c : string) : (a +:+ b) +:+ c = a +:+ (b +:+ c).
Proof. induction a as [|x a IH]; [done|]. rewrite !append_String. by rewrite IH. Qed.

Lemma length_spaces (n : nat) : String.length (Text.spaces n) = n.
Proof. induction n as [|n IH]; [done|]. simpl. by rewrite IH. Qed.

(** The ten digit characters: none is a brace or the [d] of the field, and
    each has its value. *)
Lemma digit_facts (d : Z) :
  (0 ≤ d < 10)%Z →
  Text.digit_value (Text.digit d) = Some (Z.to_nat d)
  ∧ Ascii.eqb (Text.digit d) "d" = false
  ∧ Ascii.eqb (Text.digit d) "{" = false
  ∧ Ascii.eqb (Text.digit d) "}" = false.
Proof.
  intros Hd.
  assert (d = 0 ∨ d = 1 ∨ d = 2 ∨ d = 3 ∨ d = 4 ∨ d = 5 ∨ d = 6 ∨ d = 7 ∨ d = 8 ∨ d = 9)%Z
    as Hcases by lia.
  repeat (destruct Hcases as [->|Hcases]; [by vm_compute|]). subst d. by vm_compute.
Qed.

Lemma mod_10_range (n : Z) : (0 ≤ n mod 10 < 10)%Z.
Proof. apply Z.mod_pos_bound. lia. Qed.

Lemma div_10_eq (n : Z) : n = (10 * (n / 10) + n mod 10)%Z.
Proof. apply Z.div_mod. lia. Qed.

Lemma digits_nonempty (fuel : nat) (n : Z) :
  (1 ≤ String.length (Text.digits (S fuel) n))%nat.
Proof.
  simpl. destruct (n <? 10)%Z; [simpl; lia|]. rewrite length_append. simpl. lia.
Qed.

(** With enough fuel, a number [n >= 1] has at most [k] digits exactly when
    it is below [10 ^ k]. *)
Lemma length_digits (fuel : nat) : ∀ (n : Z) (k : nat),
  (1 ≤ n < 10 ^ Z.of_nat fuel)%Z →
  (String.length (Text.digits fuel n) ≤ k)%nat ↔ (n < 10 ^ Z.of_nat k)%Z.
Proof.
  induction fuel as [|fuel IH]; intros n k Hn.
  - simpl in Hn. lia.
  - simpl Text.digits. destruct (Z.ltb_spec n 10) as [Hsmall|Hbig].
    + simpl. destruct k as [|k].
      * simpl. lia.
      * assert (10 ^ 1 ≤ 10 ^ Z.of_nat (S k))%Z by (apply Z.pow_le_mono_r; lia). lia.
    + rewrite length_append. simpl.
      pose proof (div_10_eq n) as Hdiv. pose proof (mod_10_range n) as Hmod.
      assert (Hpow : ∀ m : nat, (10 ^ Z.of_nat (S m) = 10 * 10 ^ Z.of_nat m)%Z).
      { intros m. rewrite Nat2Z.inj_succ. apply Z.pow_succ_r. lia. }
      destruct k as [|k].
      * simpl. lia.
      * rewrite Hpow. rewrite Hpow in Hn.
        specialize (IH (n / 10)%Z k ltac:(lia)). lia.
Qed.

Lemma fuel_enough (n : Z) :
  (1 ≤ n)%Z → (n < 10 ^ Z.of_nat (S (Z.to_nat (Z.log2 n))))%Z.
Proof.
  intros Hn. pose proof (Z.log2_nonneg n) as Hlog.
  replace (Z.of_nat (S (Z.to_nat (Z.log2 n)))) with (Z.succ (Z.log2 n)) by lia.
  pose proof (Z.log2_spec n ltac:(lia)) as [_ Hlt].
  assert (2 ^ Z.succ (Z.log2 n) ≤ 10 ^ Z.succ (Z.log2 n))%Z
    by (apply Z.pow_le_mono_l; lia).
  lia.
Qed.

Lemma str_nonneg (n : Z) :
  (0 ≤ n)%Z → Text.str n = Text.digits (S (Z.to_nat (Z.log2 n))) n.
Proof. intros Hn. unfold Text.str. by destruct (Z.ltb_spec n 0); [lia|]. Qed.

Lemma length_str_pos (n : Z) : (1 ≤ String.length (Text.str n))%nat.
Proof.
  unfold Text.str. destruct (n <? 0)%Z; [simpl; lia|]. apply digits_nonempty.
Qed.

(** [str] never gets shorter as the number grows. *)
Lemma length_str_mono (a b : Z) :
  (0 ≤ a ≤ b)%Z → (String.length (Text.str a) ≤ String.length (Text.str b))%nat.
Proof.
  intros Hab. destruct (decide (a = 0%Z)) as [->|Ha].
  - change (String.length (Text.str 0)) with 1%nat. apply length_str_pos.
  - rewrite !str_nonneg by lia.
    apply length_digits; [split; [lia | apply fuel_enough; lia]|].
    assert (b < 10 ^ Z.of_nat (String.length
                                 (Text.digits (S (Z.to_nat (Z.log2 b))) b)))%Z; [|lia].
    eapply (proj1 (length_digits _ b _ _)). done.
    Unshelve. split; [lia | apply fuel_enough; lia].
Qed.

Lemma length_format_d (width : nat) (x : Z) :
  String.length (Text.format_d width x) = width `max` String.length (Text.str x).
Proof. unfold Text.format_d. rewrite length_append, length_spaces. lia. Qed.

(** A width written by [str] is read back by the scan of a field. *)
Lemma format_from_width (fuel : nat) : ∀ (n : Z) (used : bool) (rest : string) (x : Z),
  (1 ≤ n < 10 ^ Z.of_nat fuel)%Z →
  Text.format_from Text.Spec used (Text.digits fuel n +:+ rest) x
  = Text.format_from (Text.Width (Z.to_nat n)) used rest x.
Proof.
  induction fuel as [|fuel IH]; intros n used rest x Hn.
  - simpl in Hn. lia.
  - assert (Hpow : (10 ^ Z.of_nat (S fuel) = 10 * 10 ^ Z.of_nat fuel)%Z).
    { rewrite Nat2Z.inj_succ. apply Z.pow_succ_r. lia. }
    simpl Text.digits. destruct (Z.ltb_spec n 10) as [Hsmall|Hbig].
    + rewrite append_String. cbn [Text.format_from].
      destruct (digit_facts n ltac:(lia)) as (-> & -> & _).
      destruct (Z.to_nat n) as [|d] eqn:Hd; [lia|]. done.
    + pose proof (div_10_eq n) as Hdiv. pose proof (mod_10_range n) as Hmod.
      rewrite append_assoc, append_String. rewrite IH by lia.
      cbn [Text.format_from].
      destruct (digit_facts (n mod 10) Hmod) as (-> & -> & _).
      do 2 f_equal. lia.
Qed.


Lemma plain_app (a b : string) :
  Text.plain a = true → Text.plain b = true → Text.plain (a +:+ b) = true.
Proof.
  induction a as [|c a IH]; [done|]. rewrite append_String. simpl.
  intros [[-> ->]%andb_prop Ha]%andb_prop Hb. simpl. by apply IH.
Qed.

Lemma plain_digits (fuel : nat) :
  ∀ n : Z, (0 ≤ n)%Z → Text.plain (Text.digits fuel n) = true.
Proof.
  induction fuel as [|fuel IH]; intros n Hn; [done|]. cbn [Text.digits].
  destruct (Z.ltb_spec n 10) as [Hsmall|Hbig].
  - cbn [Text.plain]. by destruct (digit_facts n ltac:(lia)) as (_ & _ & -> & ->).
  - pose proof (div_10_eq n). pose proof (mod_10_range n) as Hmod.
    apply plain_app; [apply IH; lia|]. cbn [Text.plain].
    by destruct (digit_facts (n mod 10) Hmod) as (_ & _ & -> & ->).
Qed.

Lemma plain_str (n : Z) : Text.plain (Text.str n) = true.
Proof.
  unfold Text.str. destruct (Z.ltb_spec n 0).
  - cbn [Text.plain]. change (Ascii.eqb "-" "{") with false.
    change (Ascii.eqb "-" "}") with false. apply plain_digits. lia.
  - by apply plain_digits.
Qed.

Lemma format_from_plain (s : string) : ∀ (used : bool) (rest : string) (x : Z),
  Text.plain s = true →
  Text.format_from Text.InText used (s +:+ rest) x
  = (λ r, s +:+ r) <$> Text.format_from Text.InText used rest x.
Proof.
  induction s as [|c s IH]; intros used rest x Hs.
  - simpl. by destruct (Text.format_from _ _ _ _).
  - simpl in Hs. apply andb_prop in Hs as [[Ho Hc]%andb_prop Hs].
    rewrite append_String. cbn [Text.format_from].
    apply negb_true_iff in Ho, Hc. rewrite Ho, Hc. rewrite IH by done.
    by destruct (Text.format_from _ _ _ _).
Qed.

Lemma append_empty_r (s : string) : s +:+ EmptyString = s.
Proof. induction s as [|c s IH]; [done|]. rewrite append_String. by rewrite IH. Qed.

(** The scan of the field that [_get_batch_fmtstr] writes. *)
Lemma format_from_field (width : nat) (used : bool) (rest : string) (x : Z) :
  (1 ≤ width)%nat →
  Text.format_from Text.Open used
    (":" +:+ Text.str (Z.of_nat width) +:+ "d}" +:+ rest) x
  = if used then None
    else (λ r, Text.format_d width x +:+ r) <$> Text.format_from Text.InText true rest x.
Proof.
  intros Hwidth. rewrite append_String. cbn [Text.format_from]. simpl Ascii.eqb.
  cbn match. change (EmptyString +:+ ?s) with s.
  rewrite str_nonneg by lia.
  rewrite format_from_width by (split; [lia | apply fuel_enough; lia]).
  rewrite !append_String. cbn [Text.format_from]. simpl Ascii.eqb. cbn match.
  by rewrite Nat2Z.id.
Qed.

(** *** [ProgressMeter] *)

Lemma format_d_own_width (x : Z) : Text.format_d (String.length (Text.str x)) x = Text.str x.
Proof. unfold Text.format_d. by rewrite Nat.sub_diag. Qed.

(** The template: the counter in a field as wide as the total, a slash and
    the total, in brackets. *)
Lemma _get_batch_fmtstr_template (num_batches : Z) :
  ProgressMeter._get_batch_fmtstr num_batches
  = Some ("[{:" +:+ Text.str (Z.of_nat (String.length (Text.str num_batches)))
          +:+ "d}/" +:+ Text.str num_batches +:+ "]").
Proof.
  unfold ProgressMeter._get_batch_fmtstr, Text.format. rewrite Z.div_1_r.
  pose proof (length_str_pos num_batches) as Hpos.
  set (width := String.length (Text.str num_batches)) in *.
  change ("{:" +:+ Text.str (Z.of_nat width) +:+ "d}")
    with (String "{" (":" +:+ Text.str (Z.of_nat width) +:+ "d}" +:+ EmptyString)).
  cbn [Text.format_from]. change (Ascii.eqb "{" "{") with true. cbn match.
  rewrite format_from_field by done. cbn [Text.format_from]. simpl fmap.
  subst width. rewrite format_d_own_width, append_empty_r. cbn [mbind option_bind].
  f_equal. rewrite !append_String. do 3 f_equal.
  change (EmptyString +:+ ?s) with s. rewrite !append_assoc. done.
Qed.

(** What a template of [_get_batch_fmtstr] gives for a counter. *)
Lemma format_batch_fmtstr (num_batches batch : Z) :
  Text.format ("[{:" +:+ Text.str (Z.of_nat (String.length (Text.str num_batches)))
               +:+ "d}/" +:+ Text.str num_batches +:+ "]") batch
  = Some ("[" +:+ Text.format_d (String.length (Text.str num_batches)) batch
          +:+ "/" +:+ Text.str num_batches +:+ "]").
Proof.
  unfold Text.format.
  pose proof (length_str_pos num_batches) as Hpos.
  set (width := String.length (Text.str num_batches)) in *.
  change ("[{:" +:+ Text.str (Z.of_nat width) +:+ "d}/" +:+ Text.str num_batches +:+ "]")
    with (String "[" (String "{" (":" +:+ Text.str (Z.of_nat width) +:+ "d}"
                                   +:+ ("/" +:+ Text.str num_batches +:+ "]")))).
  cbn [Text.format_from]. change (Ascii.eqb "[" "{") with false.
  change (Ascii.eqb "[" "}") with false. change (Ascii.eqb "{" "{") with true.
  cbn match. rewrite format_from_field by done.
  rewrite <- (append_empty_r ("/" +:+ Text.str num_batches +:+ "]")).
  rewrite format_from_plain.
  - cbn [Text.format_from]. simpl fmap. by rewrite !append_empty_r.
  - apply (plain_app "/"); [done|]. apply plain_app; [apply plain_str | done].
Qed.


(** The line of [display]: the prefix and the label, then the meters. *)
Lemma display_prints {M : Type} `{!ProgressMeter.Meter M}
  (num_batches : Z) (meters : list M) (prefix : string) (self : ProgressMeter.t M)
  (batch : Z) (stdout : list string) :
  ProgressMeter.__init__ num_batches meters prefix = Some self →
  ProgressMeter.display self batch stdout
  = Some (stdout
          ++ [Text.join Text.tab
                ((prefix +:+ "["
                  +:+ Text.format_d (String.length (Text.str num_batches)) batch
                  +:+ "/" +:+ Text.str num_batches +:+ "]")
                 :: (ProgressMeter.__str__ <$> meters))]).
Proof.
  unfold ProgressMeter.__init__. rewrite _get_batch_fmtstr_template. simpl.
  intros [= <-]. unfold ProgressMeter.display. simpl.
  rewrite format_batch_fmtstr. done.
Qed.

Lemma length_counter (num_batches batch : Z) :
  (0 ≤ batch ≤ num_batches)%Z →
  String.length (Text.format_d (String.length (Text.str num_batches)) batch)
  = String.length (Text.str num_batches).
Proof.
  intros Hbatch. rewrite length_format_d.
  pose proof (length_str_mono batch num_batches Hbatch). lia.
Qed.

(** [display] prints one line: the prefix, then in brackets the counter,
    moved to the right of a field as wide as the total, a slash and the
    total, then the meters, a tab before each.  The field is never too
    narrow for a counter from 0 to the total. *)
Theorem ProgressMeter_display_line {M : Type} `{!ProgressMeter.Meter M}
  (num_batches : Z) (meters : list M) (prefix : string) (batch : Z)
  (stdout : list string) :
  let width := String.length (Text.str num_batches) in
  let counter := Text.spaces (width - String.length (Text.str batch)) +:+ Text.str batch in
  ∃ self,
    ProgressMeter.__init__ num_batches meters prefix = Some self
    ∧ ProgressMeter.display self batch stdout
      = Some (stdout
              ++ [Text.join Text.tab
                    ((prefix +:+ "[" +:+ counter +:+ "/" +:+ Text.str num_batches +:+ "]")
                     :: (ProgressMeter.__str__ <$> meters))])
    ∧ ((0 ≤ batch ≤ num_batches)%Z → String.length counter = width).
Proof.
  intros width counter.
  assert (Hinit : ∃ self, ProgressMeter.__init__ num_batches meters prefix = Some self).
  { unfold ProgressMeter.__init__. rewrite _get_batch_fmtstr_template. by eexists. }
  destruct Hinit as [self Hinit]. exists self. split; [done|]. split.
  - by rewrite (display_prints num_batches meters prefix).
  - intros Hbatch. by apply length_counter.
Qed.


Lemma ProgressMeter_display_line_witness :
  ∃ self : ProgressMeter.t string,
    ProgressMeter.__init__ 1250 ["Time  0.1"; "Loss 3"] "Epoch: [2]" = Some self
    ∧ ProgressMeter.display self 37 []
      = Some ["Epoch: [2][  37/1250]" +:+ Text.tab +:+ "Time  0.1" +:+ Text.tab +:+ "Loss 3"].
Proof.
  destruct (ProgressMeter_display_line (M := string) 1250 ["Time  0.1"; "Loss 3"]
              "Epoch: [2]" 37 []) as (self & Hinit & Hline & _).
  exists self. split; [exact Hinit|]. rewrite Hline. reflexivity.
Defined.

